(** * Outline extraction from positioned text spans (process_pdfs.py)

    A shallow embedding of [PDFOutlineExtractor], of [save_json] and of the
    batch driver [process_all_pdfs], together with the properties of the
    outline, the title selector, the body-font estimator, the file written
    and the batch.

    Python values are represented as follows.
    - [str] is a list of Unicode code points ([pystr]).
    - [float] is the kernel's binary64 type ([PrimFloat.float]); every
      arithmetic operation and comparison is the IEEE one that CPython uses.
    - [int] is [Z]; a length is a [nat].
    - a [dict] whose iteration order matters is an association list in
      insertion order; a [set] used only for membership is a [gset]. *)

From Stdlib Require Import ZArith NArith Lia Floats Ascii String DecimalZ.
From stdpp Require Import base list sorting gmap strings.

Local Open Scope N_scope.
Set Warnings "-inexact-float,-clear-no-such-hyp".

(** ** Strings *)

Definition pystr := list N.

(** The code points of a literal written in ASCII. *)
Fixpoint lit (s : string) : pystr :=
  match s with
  | EmptyString => []
  | String a s' => N_of_ascii a :: lit s'
  end.

(** [str.isspace] on one code point, which is also what [str.strip] removes
    and what the pattern [\s] matches on a [str]. *)
Definition isspace (c : N) : bool :=
  ((9 <=? c) && (c <=? 13)) || ((28 <=? c) && (c <=? 32))
  || (c =? 133) || (c =? 160) || (c =? 5760)
  || ((8192 <=? c) && (c <=? 8202))
  || (c =? 8232) || (c =? 8233) || (c =? 8239) || (c =? 8287) || (c =? 12288).

Definition is_ascii (c : N) : bool := c <? 128.

Definition ascii_isdigit (c : N) : bool := (48 <=? c) && (c <=? 57).

Definition ascii_isword (c : N) : bool :=
  ascii_isdigit c || ((65 <=? c) && (c <=? 90)) || ((97 <=? c) && (c <=? 122))
  || (c =? 95).

Definition ascii_lower (c : N) : N :=
  if (65 <=? c) && (c <=? 90) then c + 32 else c.

(** What the Unicode character database says outside ASCII: the decimal
    digits, the word characters, and the lower-casing of a string that has a
    non-ASCII character.  The tables are not part of the program; every
    definition below takes them as they are. *)
Class UnicodeDB := {
  uni_isdigit : N -> bool;
  uni_isword : N -> bool;
  uni_lower : pystr -> pystr
}.

Section Strings.
Context {U : UnicodeDB}.

(** The class [\d]. *)
Definition isdigit (c : N) : bool :=
  if is_ascii c then ascii_isdigit c else uni_isdigit c.

(** The class [\w]. *)
Definition isword (c : N) : bool :=
  if is_ascii c then ascii_isword c else uni_isword c.

(** [str.lower]. *)
Definition lower (s : pystr) : pystr :=
  if forallb is_ascii s then map ascii_lower s else uni_lower s.

Fixpoint lstrip (s : pystr) : pystr :=
  match s with
  | c :: s' => if isspace c then lstrip s' else s
  | [] => []
  end.

Definition rstrip (s : pystr) : pystr := rev (lstrip (rev s)).

(** [str.strip]. *)
Definition strip (s : pystr) : pystr := rstrip (lstrip s).

(** [s.startswith(p)], returning what follows the prefix. *)
Fixpoint strip_prefix (p s : pystr) : option pystr :=
  match p, s with
  | [], _ => Some s
  | a :: p', b :: s' => if a =? b then strip_prefix p' s' else None
  | _ :: _, [] => None
  end.

Definition startswith (s p : pystr) : bool :=
  match strip_prefix p s with Some _ => true | None => false end.

(** [s.endswith(p)]. *)
Definition endswith (s p : pystr) : bool := startswith (rev s) (rev p).

(** [s.replace(old, new)] for a non-empty [old]: the occurrences are found
    from the left and do not overlap.  [skip] counts the characters of an
    occurrence that are still to be passed over. *)
Fixpoint replace_from (old new : pystr) (skip : nat) (s : pystr) : pystr :=
  match s with
  | [] => []
  | c :: s' =>
      match skip with
      | S n => replace_from old new n s'
      | O => if startswith s old
             then new ++ replace_from old new (length old - 1) s'
             else c :: replace_from old new 0 s'
      end
  end.

Definition replace (s old new : pystr) : pystr := replace_from old new 0 s.

(** ** Regular expressions

    The patterns of the program, as syntax.  Matching is the backtracking
    search of Python's [re]: alternatives are tried in priority order
    (greedy repetition first) and the first complete match wins. *)

Inductive regex :=
| Bol                              (* ^ *)
| Wordb                            (* \b *)
| Cls (p : N -> bool)              (* one character of a class *)
| Cat (r1 r2 : regex)
| Opt (r : regex)                  (* r? *)
| Star (r : regex)                 (* r* *)
| Plus (r : regex)                 (* r+ *)
| Grp (n : nat) (r : regex)        (* capturing group number n *)
| Ref (n : nat).                   (* \n *)

(** A position in the subject: the character before it, what is left, and
    the groups captured so far. *)
Record mstate := MState {
  m_prev : option N;
  m_rest : pystr;
  m_grps : list (nat * pystr)
}.

Definition is_wordb (st : mstate) : bool :=
  let before := match m_prev st with Some c => isword c | None => false end in
  let after := match m_rest st with c :: _ => isword c | [] => false end in
  xorb before after.

Fixpoint get_grp (n : nat) (gs : list (nat * pystr)) : option pystr :=
  match gs with
  | [] => None
  | (m, w) :: gs' => if Nat.eqb n m then Some w else get_grp n gs'
  end.

Definition set_grp (n : nat) (w : pystr) (st : mstate) : mstate :=
  MState (m_prev st) (m_rest st) ((n, w) :: m_grps st).

(** What was consumed between two positions of one subject. *)
Definition consumed (st st' : mstate) : pystr :=
  take (length (m_rest st) - length (m_rest st')) (m_rest st).

Definition orelse {A} (x : option A) (y : option A) : option A :=
  match x with Some v => Some v | None => y end.

(** Greedy iteration of a body [m]: one more round is tried first, and a
    round that consumes no character ends the iteration.  A round consumes
    at least one character, so [length (m_rest st)] rounds are all there can
    be. *)
Fixpoint star_loop (m : mstate -> (mstate -> option mstate) -> option mstate)
    (n : nat) (st : mstate) (k : mstate -> option mstate) : option mstate :=
  match n with
  | O => k st
  | S n' =>
      orelse
        (m st (fun st' =>
           if (length (m_rest st') <? length (m_rest st))%nat
           then star_loop m n' st' k else None))
        (k st)
  end.

Fixpoint mtch (r : regex) (st : mstate) (k : mstate -> option mstate)
    : option mstate :=
  match r with
  | Bol => match m_prev st with None => k st | Some _ => None end
  | Wordb => if is_wordb st then k st else None
  | Cls p =>
      match m_rest st with
      | c :: s' => if p c then k (MState (Some c) s' (m_grps st)) else None
      | [] => None
      end
  | Cat r1 r2 => mtch r1 st (fun st' => mtch r2 st' k)
  | Opt r1 => orelse (mtch r1 st k) (k st)
  | Star r1 => star_loop (mtch r1) (length (m_rest st)) st k
  | Plus r1 =>
      mtch r1 st (fun st' => star_loop (mtch r1) (length (m_rest st')) st' k)
  | Grp n r1 => mtch r1 st (fun st' => k (set_grp n (consumed st st') st'))
  | Ref n =>
      match get_grp n (m_grps st) with
      | Some w =>
          match strip_prefix w (m_rest st) with
          | Some s' =>
              k (MState (match last w with Some c => Some c | None => m_prev st end)
                        s' (m_grps st))
          | None => None
          end
      | None => None
      end
  end.

(** The first match that starts at a position, if there is one. *)
Definition match_at (r : regex) (prev : option N) (s : pystr) : option mstate :=
  mtch r (MState prev s []) Some.

(** [re.match(r, s)], read as a truth value. *)
Definition re_match (r : regex) (s : pystr) : bool :=
  match match_at r None s with Some _ => true | None => false end.

(** A replacement template: literal characters and group references. *)
Inductive repl_item := RChr (c : N) | RGrp (n : nat).

Definition expand (t : list repl_item) (st : mstate) : pystr :=
  flat_map (fun i => match i with
                     | RChr c => [c]
                     | RGrp n => default [] (get_grp n (m_grps st))
                     end) t.

(** [re.sub(r, t, s)] for a pattern that matches no empty string: the
    subject is scanned from the left, a match is replaced by the expanded
    template and the scan resumes after it.  [skip] counts the characters
    of the current match still to be passed over. *)
Fixpoint sub_from (r : regex) (t : list repl_item) (prev : option N)
    (skip : nat) (s : pystr) : pystr :=
  match s with
  | [] => []
  | c :: s' =>
      match skip with
      | S n => sub_from r t (Some c) n s'
      | O =>
          match match_at r prev s with
          | Some st' =>
              match (length s - length (m_rest st'))%nat with
              | S n => expand t st' ++ sub_from r t (Some c) n s'
              | O => c :: sub_from r t (Some c) 0 s'
              end
          | None => c :: sub_from r t (Some c) 0 s'
          end
      end
  end.

Definition re_sub (r : regex) (t : list repl_item) (s : pystr) : pystr :=
  sub_from r t None 0 s.

(** The character classes and the patterns of the program. *)
Definition chr (a : ascii) : N -> bool := fun c => c =? N_of_ascii a.
Definition cls_d := Cls isdigit.
Definition cls_s := Cls isspace.
Definition cls_w := Cls isword.
Definition cls_dot := Cls (chr ".").

(* ^\d+(\.\d+)*\s *)
Definition re_numbered : regex :=
  Cat Bol (Cat (Plus cls_d)
    (Cat (Star (Grp 1 (Cat cls_dot (Plus cls_d)))) cls_s)).
(* ^\d+\.\d+\.\d+\s+ *)
Definition re_three_groups : regex :=
  Cat Bol (Cat (Plus cls_d) (Cat cls_dot (Cat (Plus cls_d)
    (Cat cls_dot (Cat (Plus cls_d) (Plus cls_s)))))).
(* ^\d+\.\d+\s+ *)
Definition re_two_groups : regex :=
  Cat Bol (Cat (Plus cls_d) (Cat cls_dot (Cat (Plus cls_d) (Plus cls_s)))).
(* ^\d+\s+ *)
Definition re_one_group : regex := Cat Bol (Cat (Plus cls_d) (Plus cls_s)).
(* ^\d+[\).]?\s+ *)
Definition re_list_marker : regex :=
  Cat Bol (Cat (Plus cls_d)
    (Cat (Opt (Cls (fun c => chr ")" c || chr "." c))) (Plus cls_s))).
(* \b(\w+)( \1\b)+ *)
Definition re_repeated_word : regex :=
  Cat Wordb (Cat (Grp 1 (Plus cls_w))
    (Plus (Grp 2 (Cat (Cls (chr " ")) (Cat (Ref 1) Wordb))))).
(* \s{2,} *)
Definition re_spaces : regex := Cat cls_s (Plus cls_s).

(** The two substitutions applied to an accepted title. *)
Definition normalize_title (title : pystr) : pystr :=
  let title := re_sub re_repeated_word [RGrp 1] title in
  re_sub re_spaces [RChr 32] title.

End Strings.

(** ** Floats *)

Module F.
(** Python's comparison operators on floats. *)
Definition eq (x y : float) : bool := PrimFloat.eqb x y.
Definition lt (x y : float) : bool := PrimFloat.ltb x y.
Definition gt (x y : float) : bool := PrimFloat.ltb y x.
Definition ge (x y : float) : bool := PrimFloat.leb y x.
(** The truth value of a float: everything but the two zeros. *)
Definition truthy (x : float) : bool := negb (PrimFloat.eqb x 0%float).
Definition is_nan (x : float) : bool := negb (PrimFloat.eqb x x).

(** The integer nearest to [m * 2^e], ties to even. *)
Definition nearest_even (m e : Z) : Z :=
  match e with
  | Zneg p =>
      let q := Z.shiftr m (Zpos p) in
      let r := (2 * (m - Z.shiftl q (Zpos p)))%Z in
      let h := Z.shiftl 1 (Zpos p) in
      if (r <? h)%Z then q
      else if (h <? r)%Z then (q + 1)%Z
      else if Z.even q then q else (q + 1)%Z
  | _ => Z.shiftl m e
  end.

(** [round(x, 1)]: the decimal with one digit after the point that is
    nearest to [x] (ties to the even digit), converted back to the nearest
    float.  Infinities and NaN are returned as they are, and a result that
    rounds to zero keeps the sign of [x]. *)
Definition round1 (x : float) : float :=
  match Prim2SF x with
  | S754_finite s m e =>
      match nearest_even (10 * Zpos m) e with
      | Zpos n =>
          SF2Prim (SFdiv prec emax (S754_finite s n 0) (S754_finite false 10 0))
      | _ => SF2Prim (S754_zero s)
      end
  | _ => x
  end.
End F.

(** The place of a float on the number line: a NaN has none, the two zeros
    share one. *)
Definition sf_rank (f : spec_float) : option (Z * Z * Z) :=
  match f with
  | S754_nan => None
  | S754_zero _ => Some (0, 0, 0)%Z
  | S754_infinity s => Some (if s then (-2) else 2, 0, 0)%Z
  | S754_finite s m e =>
      Some (if s then (-1, - e, Zneg m) else (1, e, Zpos m))%Z
  end.

Definition rank (x : float) : option (Z * Z * Z) := sf_rank (Prim2SF x).

Definition rank_lt (a b : Z * Z * Z) : Prop :=
  (a.1.1 < b.1.1 \/ (a.1.1 = b.1.1 /\
     (a.1.2 < b.1.2 \/ (a.1.2 = b.1.2 /\ a.2 < b.2))))%Z.

(** ** Data model *)

Record TextBlock := {
  text : pystr;
  size : float;
  font : pystr;
  bold : bool;
  x0 : float;
  y0 : float;
  x1 : float;
  y1 : float;
  page_num : Z
}.

(** What the decoder reports for a page: blocks, of which some carry lines
    (the key ["lines"] is absent from the others), lines of spans. *)
Record Span := {
  span_text : pystr;
  span_size : float;
  span_font : pystr;
  span_flags : Z;
  span_bbox : float * float * float * float
}.

Record Line := { spans : list Span }.
Record RawBlock := { lines : option (list Line) }.

Record Page := {
  number : Z;
  rect_width : float;
  raw_blocks : list RawBlock
}.

Definition Document := list Page.

Inductive level := H1 | H2 | H3.

#[global] Instance level_eq_dec : EqDecision level.
Proof. solve_decision. Defined.

Record Heading := {
  h_level : level;
  h_text : pystr;
  h_page : Z;
  h_y0 : float
}.

Record OutlineEntry := { o_level : level; o_text : pystr; o_page : Z }.

Record Result := { title : pystr; outline : list OutlineEntry }.

Record Thresholds := { th_H1 : float; th_H2 : float; th_H3 : float }.

(** The fields of a [PDFOutlineExtractor]. *)
Record PDFOutlineExtractor := {
  body_font_size : float;
  font_thresholds : Thresholds;
  min_block_length : nat
}.

(** The extractor that [__init__] makes. *)
Definition __init__ : PDFOutlineExtractor :=
  {| body_font_size := 0%float;
     font_thresholds := {| th_H1 := 1.4%float; th_H2 := 1.2%float; th_H3 := 1.05%float |};
     min_block_length := 3 |}.

Definition set_body_font_size (self : PDFOutlineExtractor) (v : float)
    : PDFOutlineExtractor :=
  {| body_font_size := v;
     font_thresholds := font_thresholds self;
     min_block_length := min_block_length self |}.

(** ** Sorting and dictionaries *)

(** [a < b] on 2-tuples: the first components that differ decide, and equal
    tuples are not less. *)
Definition tuple_lt {A B} (eqA ltA : A -> A -> bool) (eqB ltB : B -> B -> bool)
    (a b : A * B) : bool :=
  if negb (eqA a.1 b.1) then ltA a.1 b.1
  else if negb (eqB a.2 b.2) then ltB a.2 b.2
  else false.

(** [sorted(l, key=key)].  The sort is stable and uses only [<] on the keys:
    an element is placed before the first element that is not less than it,
    starting from the right end of the list.  On keys that [<] orders totally
    every stable sort returns this list. *)
Section Sorted.
Context {A K : Type} (lt : K -> K -> bool) (key : A -> K).

Fixpoint insert_sorted (x : A) (l : list A) : list A :=
  match l with
  | [] => [x]
  | y :: l' => if lt (key y) (key x) then y :: insert_sorted x l'
               else x :: y :: l'
  end.

Definition sorted (l : list A) : list A := foldr insert_sorted [] l.
End Sorted.

(** [font_counts[k] += 1] on a [defaultdict(int)] with float keys, kept in
    insertion order: keys are looked up by [==], so a NaN never finds itself
    and the two zeros are one key. *)
Fixpoint incr (k : float) (fc : list (float * Z)) : list (float * Z) :=
  match fc with
  | [] => [(k, 1%Z)]
  | (k', n) :: fc' => if F.eq k' k then (k', (n + 1)%Z) :: fc'
                      else (k', n) :: incr k fc'
  end.

(** [max(items, key=lambda x: x[1])] on a non-empty list, from its first item
    on: a later item replaces the current one only when its count is strictly
    larger. *)
Definition max_by_count (first : float * Z) (others : list (float * Z)) : float * Z :=
  fold_left (fun m x => if (m.2 <? x.2)%Z then x else m) others first.

(** ** The extractor *)

Section Extractor.
Context {U : UnicodeDB}.

(** One line of a page: the usable spans are joined, and the first of them
    gives the block its style and position.  A span is a non-empty
    dictionary, so [span_props] is true exactly when it is not [None]. *)
Definition collect_line (ln : Line) : pystr * option Span :=
  fold_left
    (fun (acc : pystr * option Span) (span : Span) =>
       let '(line_text, span_props) := acc in
       let text := strip (span_text span) in
       if bool_decide (text = []) || (length text <? 2)%nat then acc
       else (line_text ++ (text ++ lit " "),
             match span_props with None => Some span | Some _ => span_props end))
    (spans ln) ([], None).

Definition block_of_line (page : Page) (ln : Line) : list TextBlock :=
  match collect_line ln with
  | (c :: line_text, Some span_props) =>
      let '(b0, b1, b2, b3) := span_bbox span_props in
      [ {| text := strip (c :: line_text);
           size := span_size span_props;
           font := span_font span_props;
           bold := negb (Z.land (span_flags span_props) 16 =? 0)%Z;
           x0 := b0; y0 := b1; x1 := b2; y1 := b3;
           page_num := (number page + 1)%Z |} ]
  | _ => []
  end.

Definition _extract_text_blocks (page : Page) : list TextBlock :=
  flat_map
    (fun block =>
       match lines block with
       | None => []
       | Some lns => flat_map (block_of_line page) lns
       end)
    (raw_blocks page).

Definition _extract_all_blocks (doc : Document) : list TextBlock :=
  flat_map _extract_text_blocks doc.

(** The histogram of [_analyze_body_font] after the sampled pages. *)
Definition font_counts (doc : Document) : list (float * Z) :=
  fold_left
    (fun fc page =>
       fold_left
         (fun fc b =>
            if (5 <? length (text b))%nat && negb (bold b)
            then incr (F.round1 (size b)) fc else fc)
         (_extract_text_blocks page) fc)
    (take (Nat.min 3 (length doc)) doc) [].

Definition _analyze_body_font (self : PDFOutlineExtractor) (doc : Document)
    : PDFOutlineExtractor :=
  set_body_font_size self
    match font_counts doc with
    | first :: others => (max_by_count first others).1
    | [] => 10.0%float
    end.

Definition _is_heading (self : PDFOutlineExtractor) (block : TextBlock) : bool :=
  let text := strip (text block) in
  if (length text <? min_block_length self)%nat then false
  else if bold block
          || F.ge (size block) (body_font_size self * 1.05)%float then true
  else if re_match re_numbered text then true
  else if existsb (fun c => 255 <? c) text then true
  else false.

(** The local [size_ratio] of [_get_level]. *)
Definition size_ratio (self : PDFOutlineExtractor) (block : TextBlock) : float :=
  if F.truthy (body_font_size self)
  then (size block / body_font_size self)%float else 1.0%float.

Definition _get_level (self : PDFOutlineExtractor) (block : TextBlock) : option level :=
  let text := strip (text block) in
  if re_match re_three_groups text then Some H3
  else if re_match re_two_groups text then Some H2
  else if re_match re_one_group text then Some H1
  else
    let size_ratio := size_ratio self block in
    if F.ge size_ratio (th_H1 (font_thresholds self)) then Some H1
    else if F.ge size_ratio (th_H2 (font_thresholds self)) then Some H2
    else if F.ge size_ratio (th_H3 (font_thresholds self)) || bold block then Some H3
    else None.

(** The headings collected by the first loop of [_extract_headings]. *)
Definition collect_headings (self : PDFOutlineExtractor) (blocks : list TextBlock)
    : list Heading :=
  flat_map
    (fun block =>
       if _is_heading self block then
         match _get_level self block with
         | Some lv => [ {| h_level := lv; h_text := strip (text block);
                           h_page := page_num block; h_y0 := y0 block |} ]
         | None => []
         end
       else [])
    blocks.

Definition heading_sort_key (h : Heading) : Z * float := (h_page h, h_y0 h).

Definition heading_key_lt : Z * float -> Z * float -> bool :=
  tuple_lt Z.eqb Z.ltb F.eq F.lt.

Definition dedup_key (h : Heading) : pystr * Z := (lower (h_text h), h_page h).

(** The second loop of [_extract_headings]. *)
Fixpoint dedup (seen : gset (pystr * Z)) (hs : list Heading) : list Heading :=
  match hs with
  | [] => []
  | h :: hs' =>
      if bool_decide (dedup_key h ∈ seen) then dedup seen hs'
      else h :: dedup ({[ dedup_key h ]} ∪ seen) hs'
  end.

Definition _extract_headings (self : PDFOutlineExtractor) (blocks : list TextBlock)
    : list Heading :=
  dedup ∅ (sorted heading_key_lt heading_sort_key (collect_headings self blocks)).

Definition title_sort_key (b : TextBlock) : float * float := (- size b, y0 b)%float.

Definition title_key_lt : float * float -> float * float -> bool :=
  tuple_lt F.eq F.lt F.eq F.lt.

Definition boilerplate : list pystr :=
  [lit "overview"; lit "table of contents"; lit "revision history"].

Definition default_title : pystr := lit "Document Title".

(** The loop of [_extract_title] over the sorted blocks of page 1. *)
Fixpoint title_scan (top_size page_width : float) (bs : list TextBlock) : pystr :=
  match bs with
  | [] => default_title
  | b :: bs' =>
      if F.gt (y0 b) 300%float then title_scan top_size page_width bs'
      else if F.gt (PrimFloat.abs (size b - top_size)) 2.0%float
      then title_scan top_size page_width bs'
      else if re_match re_list_marker (strip (text b))
      then title_scan top_size page_width bs'
      else if bool_decide (lower (strip (text b)) ∈ boilerplate)
      then title_scan top_size page_width bs'
      else
        let center_x := ((x0 b + x1 b) / 2)%float in
        if F.gt (PrimFloat.abs (center_x - page_width / 2)) (page_width * 0.25)%float
        then title_scan top_size page_width bs'
        else
          let title := normalize_title (strip (text b)) in
          if (5 <? length title)%nat then title else default_title
  end.

(** [_extract_title]; [None] is an [IndexError], of [doc[0]] on a document
    without pages (or of [sorted_blocks[0]], were the sorted list empty). *)
Definition _extract_title (doc : Document) (blocks : list TextBlock) : option pystr :=
  let page1_blocks := filter (fun b => page_num b = 1%Z) blocks in
  match page1_blocks with
  | [] => Some default_title
  | _ :: _ =>
      let sorted_blocks := sorted title_key_lt title_sort_key page1_blocks in
      match sorted_blocks, doc with
      | b0 :: _, page0 :: _ =>
          let top_size := size b0 in
          let page_width := rect_width page0 in
          Some (title_scan top_size page_width sorted_blocks)
      | _, _ => None
      end
  end.

(** [process_pdf] on an opened document: the extractor with its new body
    font size, and the record returned. *)
Definition process_pdf (self : PDFOutlineExtractor) (doc : Document)
    : PDFOutlineExtractor * option Result :=
  let self := _analyze_body_font self doc in
  let all_blocks := _extract_all_blocks doc in
  let headings := _extract_headings self all_blocks in
  (self,
   match _extract_title doc all_blocks with
   | Some title =>
       Some {| title := title;
               outline := map (fun h => {| o_level := h_level h; o_text := h_text h;
                                           o_page := h_page h |}) headings |}
   | None => None
   end).

(** The name under which [process_all_pdfs] writes the outline of a file of
    the input directory, or [None] for a file it passes over. *)
Definition output_filename (filename : pystr) : option pystr :=
  if endswith (lower filename) (lit ".pdf")
  then Some (replace filename (lit ".pdf") (lit ".json"))
  else None.

(** The files [process_all_pdfs] processes, in the order of the listing, each
    with the name its outline is written under. *)
Definition process_all_pdfs (listing : list pystr) : list (pystr * pystr) :=
  flat_map
    (fun filename =>
       match output_filename filename with
       | Some out => [(filename, out)]
       | None => []
       end)
    listing.

End Extractor.

(** ** The file written

    [json.dump(data, f, indent=4, ensure_ascii=False)] on the record that
    [process_pdf] returns: a dictionary of a string and a list of
    dictionaries of two strings and an integer. *)

(** [sep.join(l)]. *)
Fixpoint join (sep : pystr) (l : list pystr) : pystr :=
  match l with
  | [] => []
  | [t] => t
  | t :: l' => t ++ sep ++ join sep l'
  end.

(** The values that are written. *)
Local Unset Elimination Schemes.
Inductive json :=
| JStr (s : pystr)
| JInt (z : Z)
| JList (items : list json)
| JDict (items : list (pystr * json)).
Local Set Elimination Schemes.

Definition hex_digit (n : N) : N := if n <? 10 then 48 + n else 87 + n.

(** One character of a string, as it is written when [ensure_ascii] is
    false: the quote, the backslash and the control characters are escaped,
    every other character is written as it is. *)
Definition escape_char (c : N) : pystr :=
  if c =? 34 then [92; 34]
  else if c =? 92 then [92; 92]
  else if c =? 10 then [92; 110]
  else if c =? 13 then [92; 114]
  else if c =? 9 then [92; 116]
  else if c =? 12 then [92; 102]
  else if c =? 8 then [92; 98]
  else if c <? 32 then [92; 117; 48; 48; hex_digit (c / 16); hex_digit (c mod 16)]
  else [c].

Definition encode_basestring (s : pystr) : pystr :=
  34 :: flat_map escape_char s ++ [34].

Fixpoint uint_chars (d : Decimal.uint) : pystr :=
  match d with
  | Decimal.Nil => []
  | Decimal.D0 d' => 48 :: uint_chars d'
  | Decimal.D1 d' => 49 :: uint_chars d'
  | Decimal.D2 d' => 50 :: uint_chars d'
  | Decimal.D3 d' => 51 :: uint_chars d'
  | Decimal.D4 d' => 52 :: uint_chars d'
  | Decimal.D5 d' => 53 :: uint_chars d'
  | Decimal.D6 d' => 54 :: uint_chars d'
  | Decimal.D7 d' => 55 :: uint_chars d'
  | Decimal.D8 d' => 56 :: uint_chars d'
  | Decimal.D9 d' => 57 :: uint_chars d'
  end.

(** [int.__repr__]: the decimal digits, after a minus sign for a negative
    number. *)
Definition int_repr (z : Z) : pystr :=
  match Z.to_int z with
  | Decimal.Pos d => uint_chars d
  | Decimal.Neg d => 45 :: uint_chars d
  end.

(** A line break and the indentation of a nesting level, four spaces a
    level. *)
Definition newline_indent (level : nat) : pystr :=
  10 :: concat (replicate level (lit "    ")).

(** The text of a value at a nesting level: the items of a list or of a
    dictionary that is not empty stand on lines of their own, one level
    deeper, with a comma after each but the last; a key and its value are
    separated by a colon and a space. *)
Fixpoint iterencode (o : json) (level : nat) : pystr :=
  match o with
  | JStr s => encode_basestring s
  | JInt z => int_repr z
  | JList items =>
      match items with
      | [] => lit "[]"
      | _ :: _ =>
          lit "[" ++ newline_indent (S level)
          ++ join (lit "," ++ newline_indent (S level))
                  (map (fun x => iterencode x (S level)) items)
          ++ newline_indent level ++ lit "]"
      end
  | JDict items =>
      match items with
      | [] => lit "{}"
      | _ :: _ =>
          lit "{" ++ newline_indent (S level)
          ++ join (lit "," ++ newline_indent (S level))
                  (map (fun kv => encode_basestring (fst kv) ++ lit ": "
                                  ++ iterencode (snd kv) (S level)) items)
          ++ newline_indent level ++ lit "}"
      end
  end.

Definition level_name (lv : level) : pystr :=
  match lv with H1 => lit "H1" | H2 => lit "H2" | H3 => lit "H3" end.

(** The dictionary that [process_pdf] returns, with its keys in the order
    in which they are written down. *)
Definition result_json (r : Result) : json :=
  JDict [ (lit "title", JStr (title r));
          (lit "outline",
           JList (map (fun e => JDict [ (lit "level", JStr (level_name (o_level e)));
                                        (lit "text", JStr (o_text e));
                                        (lit "page", JInt (o_page e)) ])
                      (outline r))) ].

(** The text that [save_json] writes to the file it has opened. *)
Definition save_json (data : Result) : pystr := iterencode (result_json data) 0.

(** ** The batch

    [process_all_pdfs] with what it does to the world: the files it writes
    and the lines it prints.  What the world answers is not part of the
    program: what [fitz.open] gives for a path (a document, whose pages are
    taken as decoded, or the exception raised), whether the output file can
    be opened for writing, and the exceptions themselves with the text that
    [str] gives for them.  The device takes all that is written to a file,
    and the output stream every line that is printed. *)

Class Environment := {
  Exception : Type;
  exn_str : Exception -> pystr;
  fitz_open : pystr -> Exception + Document;
  open_w : pystr -> option Exception;
  index_error : Exception;
  encode_error : pystr -> Exception
}.

(** A file that was written to the end, or one whose writing broke off. *)
Inductive file := Complete (content : pystr) | Damaged.

Record World := {
  extractor : PDFOutlineExtractor;
  files : gmap pystr file;
  stdout : list pystr
}.

(** [os.path.join(a, b)] of [posixpath]. *)
Definition path_join (a b : pystr) : pystr :=
  if startswith b (lit "/") then b
  else if bool_decide (a = []) || endswith a (lit "/") then a ++ b
  else a ++ lit "/" ++ b.

(** The texts that the codec [utf-8] encodes: those without a surrogate. *)
Definition encodable (s : pystr) : bool :=
  forallb (fun c => negb ((55296 <=? c) && (c <=? 57343))) s.

Section Batch.
Context {U : UnicodeDB} {E : Environment}.

(** [extractor.process_pdf(input_path)]: the extractor afterwards, and the
    record or the exception raised. *)
Definition process_pdf_path (self : PDFOutlineExtractor) (pdf_path : pystr)
    : PDFOutlineExtractor * (Exception + Result) :=
  match fitz_open pdf_path with
  | inl e => (self, inl e)
  | inr doc =>
      match process_pdf self doc with
      | (self', Some result) => (self', inr result)
      | (self', None) => (self', inl index_error)
      end
  end.

(** [save_json(data, output_path)] on the files: opening the file for
    writing empties it, and a text that cannot be encoded breaks the writing
    off. *)
Definition save_json_to (data : Result) (output_path : pystr) (fs : gmap pystr file)
    : gmap pystr file * option Exception :=
  match open_w output_path with
  | Some e => (fs, Some e)
  | None =>
      let content := save_json data in
      if encodable content then (<[output_path := Complete content]> fs, None)
      else (<[output_path := Damaged]> fs, Some (encode_error content))
  end.

Definition processed_line (filename : pystr) : pystr :=
  lit "Processed: " ++ filename.

Definition error_line (filename : pystr) (e : Exception) : pystr :=
  lit "Error processing " ++ filename ++ lit ": " ++ exn_str e.

Definition print (line : pystr) (w : World) : World :=
  {| extractor := extractor w; files := files w; stdout := stdout w ++ [line] |}.

(** The body of the loop of [process_all_pdfs]. *)
Definition process_file (input_dir output_dir : pystr) (w : World) (filename : pystr)
    : World :=
  if endswith (lower filename) (lit ".pdf") then
    let input_path := path_join input_dir filename in
    let output_path :=
      path_join output_dir (replace filename (lit ".pdf") (lit ".json")) in
    match process_pdf_path (extractor w) input_path with
    | (self, inr result) =>
        match save_json_to result output_path (files w) with
        | (fs, None) =>
            print (processed_line filename)
              {| extractor := self; files := fs; stdout := stdout w |}
        | (fs, Some e) =>
            print (error_line filename e)
              {| extractor := self; files := fs; stdout := stdout w |}
        end
    | (self, inl e) =>
        print (error_line filename e)
          {| extractor := self; files := files w; stdout := stdout w |}
    end
  else w.

(** [process_all_pdfs(input_dir, output_dir)] where [os.listdir(input_dir)]
    gives [listing], from the files [fs] and the lines [out] printed
    before. *)
Definition run_process_all_pdfs (input_dir output_dir : pystr) (listing : list pystr)
    (fs : gmap pystr file) (out : list pystr) : World :=
  fold_left (process_file input_dir output_dir) listing
    {| extractor := __init__; files := fs; stdout := out |}.

End Batch.

(** ** Vocabulary of the statements *)

Section Vocabulary.
Context {U : UnicodeDB}.

(** The matches of a pattern, as a relation between the position where a
    match starts and the position where it ends; [mtch] searches this
    relation in priority order. *)
Inductive matches : regex -> mstate -> mstate -> Prop :=
| M_Bol st : m_prev st = None -> matches Bol st st
| M_Wordb st : is_wordb st = true -> matches Wordb st st
| M_Cls p st c s' :
    m_rest st = c :: s' -> p c = true ->
    matches (Cls p) st (MState (Some c) s' (m_grps st))
| M_Cat r1 r2 st st1 st2 :
    matches r1 st st1 -> matches r2 st1 st2 -> matches (Cat r1 r2) st st2
| M_Opt_one r st st' : matches r st st' -> matches (Opt r) st st'
| M_Opt_none r st : matches (Opt r) st st
| M_Star_nil r st : matches (Star r) st st
| M_Star_cons r st st1 st2 :
    matches r st st1 -> (length (m_rest st1) < length (m_rest st))%nat ->
    matches (Star r) st1 st2 -> matches (Star r) st st2
| M_Plus r st st1 st2 :
    matches r st st1 -> matches (Star r) st1 st2 -> matches (Plus r) st st2
| M_Grp n r st st' :
    matches r st st' -> matches (Grp n r) st (set_grp n (consumed st st') st')
| M_Ref n st w s' :
    get_grp n (m_grps st) = Some w -> strip_prefix w (m_rest st) = Some s' ->
    matches (Ref n) st
      (MState (match last w with Some c => Some c | None => m_prev st end)
              s' (m_grps st)).

(** The position reached from [st] by reading the characters [xs]. *)
Fixpoint consume (xs : pystr) (st : mstate) : mstate :=
  match xs with
  | [] => st
  | c :: xs' => consume xs' (MState (Some c) (tail (m_rest st)) (m_grps st))
  end.

(** The conditions under which the loop of [_extract_title] does not pass
    over a block. *)
Definition title_candidate (top_size page_width : float) (b : TextBlock) : bool :=
  negb (F.gt (y0 b) 300%float)
  && negb (F.gt (PrimFloat.abs (size b - top_size)) 2.0%float)
  && negb (re_match re_list_marker (strip (text b)))
  && negb (bool_decide (lower (strip (text b)) ∈ boilerplate))
  && negb (F.gt (PrimFloat.abs ((x0 b + x1 b) / 2 - page_width / 2))
                (page_width * 0.25)%float).

(** What is returned for an accepted block. *)
Definition accepted_title (b : TextBlock) : pystr :=
  let title := normalize_title (strip (text b)) in
  if (5 <? length title)%nat then title else default_title.



Definition not_nan (k : float) : Prop := F.is_nan k = false.




(** The order of the sort keys of the title scan, and the order in which it
    puts the blocks: a larger size first, and for equal sizes a smaller
    [y0] first. *)
Definition title_key_le (a b : float * float) : Prop :=
  F.lt a.1 b.1 = true \/ (F.eq a.1 b.1 = true /\ PrimFloat.leb a.2 b.2 = true).

Definition scan_order (a b : TextBlock) : Prop :=
  F.gt (size a) (size b) = true
  \/ (F.eq (size a) (size b) = true /\ PrimFloat.leb (y0 a) (y0 b) = true).

(** A heading block that gets no level. *)
Definition unleveled (self : PDFOutlineExtractor) (b : TextBlock) : Prop :=
  _is_heading self b = true /\ _get_level self b = None.

#[global] Instance unleveled_dec self b : Decision (unleveled self b).
Proof. unfold unleveled. apply _. Defined.


(** The blocks the body-font estimator looks at, those of them it counts,
    and the keys it counts them under, in the order of the pages. *)
Definition sample_blocks (doc : Document) : list TextBlock :=
  flat_map _extract_text_blocks (take (Nat.min 3 (length doc)) doc).

Definition qualifies (b : TextBlock) : Prop :=
  (5 < length (text b))%nat /\ bold b = false.

#[global] Instance qualifies_dec b : Decision (qualifies b).
Proof. unfold qualifies. apply _. Defined.

Definition sample_sizes (doc : Document) : list float :=
  size <$> filter qualifies (sample_blocks doc).

Definition sample_keys (doc : Document) : list float :=
  F.round1 <$> sample_sizes doc.

(** A span that [_extract_text_blocks] does not pass over. *)
Definition usable (sp : Span) : Prop := (2 <= length (strip (span_text sp)))%nat.

#[global] Instance usable_dec sp : Decision (usable sp).
Proof. unfold usable. apply _. Defined.

Definition entry_of (h : Heading) : OutlineEntry :=
  {| o_level := h_level h; o_text := h_text h; o_page := h_page h |}.

Definition heading_of (lv : level) (b : TextBlock) : Heading :=
  {| h_level := lv; h_text := strip (text b); h_page := page_num b; h_y0 := y0 b |}.

End Vocabulary.

(** ** Vocabulary of the further statements *)

Section FurtherVocabulary.
Context {U : UnicodeDB}.

(** A text that begins and ends with characters that are not whitespace. *)
Definition tight (s : pystr) : Prop :=
  (exists c, head s = Some c /\ isspace c = false)
  /\ (exists d, last s = Some d /\ isspace d = false).

(** The pages carry their indices, as the pages of an opened document do:
    the first page has number 0. *)
Definition pages_numbered (doc : Document) : Prop :=
  forall (i : nat) page, doc !! i = Some page -> number page = Z.of_nat i.

(** The local [page1_blocks] of [_extract_title]. *)
Definition page1_blocks (blocks : list TextBlock) : list TextBlock :=
  filter (fun b => page_num b = 1%Z) blocks.

(** A text with a numbering prefix: digits, then groups of digits each
    after a dot, then a whitespace character. *)
Definition numbered_text (ds : pystr) (gs : list pystr) (w : N) (rest : pystr) : pystr :=
  ds ++ concat ((fun g => 46 :: g) <$> gs) ++ w :: rest.

Definition digits (g : pystr) : Prop :=
  g <> [] /\ Forall (fun c => isdigit c = true) g.

(** No two whitespace characters of the text are next to each other. *)
Fixpoint single_spaced (s : pystr) : bool :=
  match s with
  | a :: s' =>
      match s' with
      | b :: _ => negb (isspace a && isspace b) && single_spaced s'
      | [] => true
      end
  | [] => true
  end.

(** Reading a string back from the text written for it, from after the
    opening quote on: the string, and what follows the closing quote. *)
Definition hex_val (c : N) : option N :=
  if (48 <=? c) && (c <=? 57) then Some (c - 48)
  else if (97 <=? c) && (c <=? 102) then Some (c - 87)
  else None.

Definition unescape (c : N) : option N :=
  if c =? 34 then Some 34
  else if c =? 92 then Some 92
  else if c =? 110 then Some 10
  else if c =? 114 then Some 13
  else if c =? 116 then Some 9
  else if c =? 102 then Some 12
  else if c =? 98 then Some 8
  else None.

Fixpoint read_string (s : pystr) : option (pystr * pystr) :=
  match s with
  | [] => None
  | c :: s1 =>
      if c =? 34 then Some ([], s1)
      else if c =? 92 then
        match s1 with
        | [] => None
        | e :: s2 =>
            if e =? 117 then
              match s2 with
              | _ :: _ :: a :: b :: s3 =>
                  match hex_val a, hex_val b, read_string s3 with
                  | Some x, Some y, Some (t, rest) => Some (16 * x + y :: t, rest)
                  | _, _, _ => None
                  end
              | _ => None
              end
            else
              match unescape e, read_string s2 with
              | Some x, Some (t, rest) => Some (x :: t, rest)
              | _, _ => None
              end
        end
      else
        match read_string s1 with
        | Some (t, rest) => Some (c :: t, rest)
        | None => None
        end
  end.

(** The characters of a written integer. *)
Definition int_char (c : N) : bool := (c =? 45) || ascii_isdigit c.

(** A character that is not a control character, or the line break. *)
Definition plain (c : N) : bool := (c =? 10) || (32 <=? c).

(** The characters outside ASCII of a text, in their order. *)
Definition non_ascii (s : pystr) : pystr := filter (fun c => 128 <= c) s.

(** The text written for the outline, one level inside the record. *)
Definition entry_json (e : OutlineEntry) : json :=
  JDict [ (lit "level", JStr (level_name (o_level e)));
          (lit "text", JStr (o_text e));
          (lit "page", JInt (o_page e)) ].

End FurtherVocabulary.

Section BatchVocabulary.
Context {U : UnicodeDB} {E : Environment}.





End BatchVocabulary.

(** ** Concrete inputs *)

(** Tables that know no character outside ASCII, to run the definitions on
    ASCII inputs. *)
#[local] Instance ascii_only : UnicodeDB :=
  {| uni_isdigit := fun _ => false; uni_isword := fun _ => false;
     uni_lower := fun s => s |}.

Definition example_block (t : string) (sz : float) (bd : bool) (y : float) (p : Z)
    : TextBlock :=
  {| text := lit t; size := sz; font := lit "Helvetica"; bold := bd;
     x0 := 100%float; y0 := y; x1 := 500%float; y1 := (y + sz)%float;
     page_num := p |}.

Definition four_group_block : TextBlock := example_block "1.2.3.4 Details" 10 false 120 2.


(** Headings out of reading order over two pages, one of them twice on its
    page (in the running header and in the body, in different case). *)
Definition scattered_blocks : list TextBlock :=
  [ example_block "3 Results" 14 false 400 2;
    example_block "Annual Report" 16 true 40 2;
    example_block "1 Introduction" 14 false 300 1;
    example_block "ANNUAL REPORT" 12 true 20 2;
    example_block "body text of the page" 10 false 350 1;
    example_block "2 Method" 14 false 90 2;
    example_block "Annual Report" 16 true 30 1 ].

Definition example_span (t : string) (sz : float) (flags : Z) (y : float) : Span :=
  {| span_text := lit t; span_size := sz; span_font := lit "Helvetica";
     span_flags := flags; span_bbox := (72, y, 300, y + sz)%float |}.

Definition example_page (n : Z) (sps : list Span) : Page :=
  {| number := n; rect_width := 612%float;
     raw_blocks := {| lines := None |}
                   :: map (fun sp => {| lines := Some [ {| spans := [sp] |} ] |}) sps |}.

(** Four pages.  On the first three, twelve lines of size 11.0 and five of
    size 9.0 are long enough and not bold; the fourth page is not sampled. *)
Definition example_doc : Document :=
  [ example_page 0
      [ example_span "Quarterly Review" 18 16 60;
        example_span "The first paragraph" 11 0 100;
        example_span "goes on for a while" 11 0 114;
        example_span "and then some more" 11 0 128;
        example_span "until it ends." 11 0 142;
        example_span "Fig." 9 0 160;
        example_span "A second paragraph" 11 0 180;
        example_span "is shorter." 11 0 194 ];
    example_page 1
      [ example_span "The third paragraph" 11 0 100;
        example_span "is on the next page" 11 0 114;
        example_span "with more words" 11 0 128;
        example_span "and a last line." 11 0 142;
        example_span "A closing paragraph" 11 0 170;
        example_span "of two lines." 11 0 184 ];
    example_page 2
      [ example_span "1 Footnote text" 9 0 700;
        example_span "2 Footnote text" 9 0 712;
        example_span "3 Footnote text" 9 0 724;
        example_span "4 Footnote text" 9 0 736;
        example_span "5 Footnote text" 9 0 748 ];
    example_page 3
      [ example_span "An appendix in small print" 9 0 100;
        example_span "An appendix in small print" 9 0 112;
        example_span "An appendix in small print" 9 0 124;
        example_span "An appendix in small print" 9 0 136;
        example_span "An appendix in small print" 9 0 148;
        example_span "An appendix in small print" 9 0 160;
        example_span "An appendix in small print" 9 0 172;
        example_span "An appendix in small print" 9 0 184;
        example_span "An appendix in small print" 9 0 196;
        example_span "An appendix in small print" 9 0 208;
        example_span "An appendix in small print" 9 0 220;
        example_span "An appendix in small print" 9 0 232;
        example_span "An appendix in small print" 9 0 244;
        example_span "An appendix in small print" 9 0 256 ] ].

(** A first page whose largest block is a list item. *)
Definition list_item_page : list TextBlock :=
  [ example_block "A Study of Outlines" 22 false 60 1;
    example_block "1) Introduction" 24 false 120 1;
    example_block "Introduction" 24 false 200 2 ].


(** A line of three spans, of which the second is too short to count. *)
Definition spaced_line : Line :=
  {| spans := [ example_span "  Annual " 18 16 60; example_span " & " 18 16 60;
                example_span "Report 2024  " 12 0 60 ] |}.

Definition spaced_block : TextBlock :=
  {| text := lit "Annual Report 2024"; size := 18%float; font := lit "Helvetica";
     bold := true; x0 := 72%float; y0 := 60%float; x1 := 300%float; y1 := 78%float;
     page_num := 1 |}.

Definition first_page : Page :=
  example_page 0 [ example_span "Quarterly Review" 18 16 60;
                   example_span "The first paragraph" 11 0 100 ].

Definition second_page : Page :=
  example_page 1 [ example_span "1 Introduction" 14 0 80;
                   example_span "The second paragraph" 11 0 100 ].

(** Two records that differ in one character of the title, which is
    escaped in the one and not in the other. *)
Definition quoted_result : Result :=
  {| title := [65; 34; 66];
     outline := [ {| o_level := H1; o_text := lit "1 Introduction"; o_page := 1 |} ] |}.

Definition unquoted_result : Result :=
  {| title := [65; 92; 66];
     outline := [ {| o_level := H1; o_text := lit "1 Introduction"; o_page := 1 |} ] |}.

(** A world with one document that opens; nothing else does.  Every output
    file can be opened for writing. *)
#[local] Instance one_document_world : Environment :=
  {| Exception := pystr;
     exn_str := fun e => e;
     fitz_open := fun path =>
       if bool_decide (path = lit "in/report.pdf") then inr [first_page; second_page]
       else inl (lit "cannot open broken document");
     open_w := fun _ => None;
     index_error := lit "list index out of range";
     encode_error := fun _ => lit "surrogates not allowed" |}.

Definition example_listing : list pystr :=
  [ lit "report.pdf"; lit "notes.txt"; lit "broken.pdf" ].
(** * Properties *)

(** ** The order of floats *)

Lemma SFcompare_rank f1 f2 :
  match SFcompare f1 f2 with
  | Some Lt => exists a b, sf_rank f1 = Some a /\ sf_rank f2 = Some b /\ rank_lt a b
  | Some Eq => exists a, sf_rank f1 = Some a /\ sf_rank f2 = Some a
  | Some Gt => exists a b, sf_rank f1 = Some a /\ sf_rank f2 = Some b /\ rank_lt b a
  | None => sf_rank f1 = None \/ sf_rank f2 = None
  end.
Proof.
  destruct f1 as [s1| s1 | |s1 m1 e1], f2 as [s2|s2| |s2 m2 e2]; simpl; auto;
    try (destruct s1); try (destruct s2); simpl;
    try (eexists; split; [reflexivity|reflexivity]);
    try (eexists _, _; split; [reflexivity|split; [reflexivity|unfold rank_lt; simpl; lia]]).
  - change (PosDef.Pos.compare_cont Eq m1 m2) with (Pos.compare m1 m2).
    destruct (Z.compare_spec e1 e2); [destruct (Pos.compare_spec m1 m2)|..]; simpl; subst;
    try (eexists; split; [reflexivity|reflexivity]);
    try (eexists _, _; split; [reflexivity|split; [reflexivity|unfold rank_lt; simpl; lia]]).
  - change (PosDef.Pos.compare_cont Eq m1 m2) with (Pos.compare m1 m2).
    destruct (Z.compare_spec e1 e2); [destruct (Pos.compare_spec m1 m2)|..]; simpl; subst;
    try (eexists; split; [reflexivity|reflexivity]);
    try (eexists _, _; split; [reflexivity|split; [reflexivity|unfold rank_lt; simpl; lia]]).
Qed.

Lemma rank_lt_irrefl a : ~ rank_lt a a.
Proof. unfold rank_lt. lia. Qed.

Lemma rank_lt_asym a b : rank_lt a b -> ~ rank_lt b a.
Proof. unfold rank_lt. lia. Qed.

Lemma rank_lt_trans a b c : rank_lt a b -> rank_lt b c -> rank_lt a c.
Proof. unfold rank_lt. lia. Qed.

Lemma rank_trichotomy a b : rank_lt a b \/ a = b \/ rank_lt b a.
Proof.
  destruct a as [[a1 a2] a3], b as [[b1 b2] b3]. unfold rank_lt. simpl.
  destruct (decide (a1 = b1)), (decide (a2 = b2)), (decide (a3 = b3)); subst; auto; lia.
Qed.

Ltac rank_clash :=
  repeat match goal with
  | H : exists _, _ |- _ => destruct H
  | H : _ /\ _ |- _ => destruct H
  | H : _ \/ _ |- _ => destruct H
  | H1 : ?r = Some _, H2 : ?r = Some _ |- _ => rewrite H1 in H2; injection H2 as <-
  | H1 : ?r = Some _, H2 : ?r = None |- _ => rewrite H1 in H2; discriminate
  | H : rank_lt ?a ?a |- _ => destruct (rank_lt_irrefl _ H)
  | H1 : rank_lt ?a ?b, H2 : rank_lt ?b ?a |- _ => destruct (rank_lt_asym _ _ H1 H2)
  end.

Lemma F_eq_rank x y :
  F.eq x y = true <-> exists a, rank x = Some a /\ rank y = Some a.
Proof.
  unfold F.eq, rank. rewrite FloatAxioms.eqb_spec. unfold SFeqb.
  pose proof (SFcompare_rank (Prim2SF x) (Prim2SF y)) as H.
  destruct (SFcompare _ _) as [[]|]; split; intros H'; try done; try discriminate;
    rank_clash.
Qed.

Lemma F_lt_rank x y :
  F.lt x y = true <-> exists a b, rank x = Some a /\ rank y = Some b /\ rank_lt a b.
Proof.
  unfold F.lt, rank. rewrite FloatAxioms.ltb_spec. unfold SFltb.
  pose proof (SFcompare_rank (Prim2SF x) (Prim2SF y)) as H.
  destruct (SFcompare _ _) as [[]|]; split; intros H'; try done; try discriminate;
    rank_clash.
Qed.

Lemma F_le_rank x y :
  PrimFloat.leb x y = true <->
  exists a b, rank x = Some a /\ rank y = Some b /\ (rank_lt a b \/ a = b).
Proof.
  unfold rank. rewrite FloatAxioms.leb_spec. unfold SFleb.
  pose proof (SFcompare_rank (Prim2SF x) (Prim2SF y)) as H.
  destruct (SFcompare _ _) as [[]|]; split; intros H'; try done; try discriminate;
    rank_clash; subst; rank_clash; eauto 8.
Qed.

Lemma F_not_nan_rank x : F.is_nan x = false <-> exists a, rank x = Some a.
Proof.
  unfold F.is_nan. rewrite negb_false_iff. change (PrimFloat.eqb x x) with (F.eq x x).
  rewrite F_eq_rank. naive_solver.
Qed.

Lemma F_eq_refl x : F.is_nan x = false -> F.eq x x = true.
Proof. unfold F.is_nan, F.eq. by rewrite negb_false_iff. Qed.

Lemma F_eq_sym x y : F.eq x y = F.eq y x.
Proof.
  apply eq_true_iff_eq. rewrite !F_eq_rank. naive_solver.
Qed.

Lemma F_eq_trans x y z : F.eq x y = true -> F.eq y z = true -> F.eq x z = true.
Proof. rewrite !F_eq_rank. intros. rank_clash. eauto. Qed.

Lemma F_eq_not_nan x y : F.eq x y = true -> F.is_nan x = false /\ F.is_nan y = false.
Proof. rewrite !F_not_nan_rank, F_eq_rank. naive_solver. Qed.

Lemma F_lt_le x y : F.lt x y = true -> PrimFloat.leb x y = true.
Proof. rewrite F_lt_rank, F_le_rank. naive_solver. Qed.

Lemma F_eq_le x y : F.eq x y = true -> PrimFloat.leb x y = true.
Proof. rewrite F_eq_rank, F_le_rank. naive_solver. Qed.

Lemma F_not_lt_le x y :
  F.is_nan x = false -> F.is_nan y = false -> F.lt x y = false -> PrimFloat.leb y x = true.
Proof.
  rewrite !F_not_nan_rank, F_le_rank. intros [a Ha] [b Hb] Hlt.
  destruct (rank_trichotomy a b) as [H|[H|H]]; [|by subst; eauto 8|by eauto 8].
  assert (F.lt x y = true) by (apply F_lt_rank; eauto 8). congruence.
Qed.

Lemma F_le_trans x y z :
  PrimFloat.leb x y = true -> PrimFloat.leb y z = true -> PrimFloat.leb x z = true.
Proof.
  rewrite !F_le_rank. intros (a & b & Ha & Hb & Hab) (b' & c & Hb' & Hc & Hbc).
  rewrite Hb in Hb'. injection Hb' as <-. exists a, c. split_and!; auto.
  destruct Hab as [Hab | ->], Hbc as [Hbc | <-]; eauto using rank_lt_trans.
Qed.

Lemma F_lt_trans x y z : F.lt x y = true -> F.lt y z = true -> F.lt x z = true.
Proof.
  rewrite !F_lt_rank. intros (a & b & Ha & Hb & Hab) (b' & c & Hb' & Hc & Hbc).
  rewrite Hb in Hb'. injection Hb' as <-. exists a, c. eauto using rank_lt_trans.
Qed.

Lemma F_lt_eq_trans x y z : F.lt x y = true -> F.eq y z = true -> F.lt x z = true.
Proof.
  rewrite !F_lt_rank, F_eq_rank. intros (a & b & Ha & Hb & Hab) (b' & Hb' & Hc).
  rewrite Hb in Hb'. injection Hb' as <-. eauto 6.
Qed.

Lemma F_eq_lt_trans x y z : F.eq x y = true -> F.lt y z = true -> F.lt x z = true.
Proof.
  rewrite !F_lt_rank, F_eq_rank. intros (a & Ha & Hb) (b' & c & Hb' & Hc & Hbc).
  rewrite Hb in Hb'. injection Hb' as <-. eauto 6.
Qed.

Lemma F_not_lt_not_eq x y :
  F.is_nan x = false -> F.is_nan y = false ->
  F.lt x y = false -> F.eq x y = false -> F.lt y x = true.
Proof.
  rewrite !F_not_nan_rank. intros [a Ha] [b Hb] Hlt Heq.
  destruct (rank_trichotomy a b) as [H|[H|H]].
  - assert (F.lt x y = true) by (apply F_lt_rank; eauto 6). congruence.
  - subst. assert (F.eq x y = true) by (apply F_eq_rank; eauto). congruence.
  - apply F_lt_rank. eauto 6.
Qed.

Lemma rank_opp x :
  rank (- x) = (fun a => (- a.1.1, - a.1.2, - a.2)%Z) <$> rank x.
Proof.
  unfold rank. rewrite FloatAxioms.opp_spec.
  destruct (Prim2SF x) as [[]|[]| |[] m e]; simpl; try done.
  by rewrite Z.opp_involutive.
Qed.

Lemma F_lt_opp x y : F.lt (- x) (- y) = F.lt y x.
Proof.
  apply eq_true_iff_eq. rewrite !F_lt_rank, !rank_opp. split.
  - intros (a & b & Ha & Hb & Hab).
    destruct (rank x) as [a'|]; [|done]. destruct (rank y) as [b'|]; [|done].
    simplify_eq/=. exists b', a'. split_and!; [done..|].
    unfold rank_lt in *. simpl in *. lia.
  - intros (b & a & -> & -> & Hab). eexists _, _. split_and!; [done..|].
    unfold rank_lt in *. simpl in *. lia.
Qed.

Lemma F_eq_opp x y : F.eq (- x) (- y) = F.eq x y.
Proof.
  apply eq_true_iff_eq. rewrite !F_eq_rank, !rank_opp. split.
  - intros (a & Ha & Hb).
    destruct (rank x) as [[[a1 a2] a3]|]; [|done].
    destruct (rank y) as [[[b1 b2] b3]|]; [|done].
    simplify_eq/=. eexists. split; [done|]. do 2 f_equal; [f_equal|]; lia.
  - intros (a & -> & ->). by eexists.
Qed.

Lemma F_is_nan_opp x : F.is_nan (- x) = F.is_nan x.
Proof. unfold F.is_nan. f_equal. apply F_eq_opp. Qed.

(** ** Title normalization *)

Section TitleNormalization.
Context {U : UnicodeDB}.

Lemma title_scan_cons top_size page_width b bs :
  title_scan top_size page_width (b :: bs) =
  if title_candidate top_size page_width b then accepted_title b
  else title_scan top_size page_width bs.
Proof.
  unfold title_candidate, accepted_title. simpl.
  repeat (match goal with |- context [if ?c then _ else _] => destruct c end;
          simpl; try reflexivity).
Qed.

(** C1 (as the code has it).  The title ["Annual Annual Report   Report"]
    is normalized to ["Annual Report Report"]: the repeated word is collapsed
    only where a single space separates the two occurrences, so the second
    pair, three spaces apart, stays, and the run of spaces then becomes one
    space.  This is also what [_extract_title] returns when it accepts a
    block with that text. *)
Theorem title_normalization_annual_report top_size page_width b bs :
  strip (text b) = lit "Annual Annual Report   Report" ->
  title_candidate top_size page_width b = true ->
  normalize_title (strip (text b)) = lit "Annual Report Report"
  /\ title_scan top_size page_width (b :: bs) = lit "Annual Report Report".
Proof.
  intros Htext Hcand.
  assert (normalize_title (strip (text b)) = lit "Annual Report Report") as Hn
    by (rewrite Htext; vm_compute; reflexivity).
  split; [exact Hn|].
  rewrite title_scan_cons, Hcand. unfold accepted_title. rewrite Hn. reflexivity.
Qed.

End TitleNormalization.

(** The value C1 expects is not the one the code computes, whatever the
    Unicode tables are. *)
Lemma title_normalization_counterexample :
  ~ exists U : UnicodeDB,
      @normalize_title U (lit "Annual Annual Report   Report") = lit "Annual Report".
Proof. intros [U H]. vm_compute in H. discriminate H. Qed.

(** ** Classification and levels *)

Section Levels.
Context {U : UnicodeDB}.

(** C2.  A block whose trimmed text is ["2.1 Background"], set in the body
    font size and not bold, is a heading and gets level H2: the numbering
    pattern decides before any size ratio is looked at. *)
Theorem numbering_precedence_two_groups (bfs : float) (b : TextBlock) :
  strip (text b) = lit "2.1 Background" ->
  size b = bfs ->
  bold b = false ->
  _is_heading (set_body_font_size __init__ bfs) b = true
  /\ _get_level (set_body_font_size __init__ bfs) b = Some H2.
Proof.
  intros Htext _ Hbold. unfold _is_heading, _get_level.
  rewrite Htext, Hbold. split.
  - simpl. destruct (F.ge _ _); [reflexivity|]. vm_compute. reflexivity.
  - vm_compute. reflexivity.
Qed.

(** C3.  For a heading block that is not bold and has no numbering
    prefix, a size ratio of exactly 1.4 gives H1 and a ratio of 1.39999
    gives H2.  No numbering prefix: none of the three numbering patterns of
    the level assigner matches, which is so in particular when the numbering
    pattern of the classifier does not match. *)
Theorem level_threshold_boundaries (bfs : float) (b : TextBlock) :
  _is_heading (set_body_font_size __init__ bfs) b = true ->
  re_match re_three_groups (strip (text b)) = false ->
  re_match re_two_groups (strip (text b)) = false ->
  re_match re_one_group (strip (text b)) = false ->
  bold b = false ->
  (size_ratio (set_body_font_size __init__ bfs) b = 1.4%float ->
   _get_level (set_body_font_size __init__ bfs) b = Some H1)
  /\ (size_ratio (set_body_font_size __init__ bfs) b = 1.39999%float ->
      _get_level (set_body_font_size __init__ bfs) b = Some H2).
Proof.
  intros _ H3g H2g H1g Hbold. unfold _get_level.
  rewrite H3g, H2g, H1g. split; intros ->; reflexivity.
Qed.


End Levels.

(** ** File names of the batch *)

(** C9 at its failing inputs.  A name with an upper-case extension is
    processed and keeps its name, so the outline is written under a name that
    ends in [.PDF]; and every [.pdf] inside a name is replaced, not only the
    last one. *)
Theorem output_filename_not_json {U : UnicodeDB} :
  output_filename (lit "REPORT.PDF") = Some (lit "REPORT.PDF")
  /\ output_filename (lit "a.pdf.pdf") = Some (lit "a.json.json")
  /\ process_all_pdfs [lit "REPORT.PDF"; lit "notes.txt"; lit "a.pdf.pdf"; lit "b.pdf"]
     = [(lit "REPORT.PDF", lit "REPORT.PDF"); (lit "a.pdf.pdf", lit "a.json.json");
        (lit "b.pdf", lit "b.json")].
Proof. vm_compute. repeat split. Qed.

(** ** Sorting *)

Section SortedFacts.
Context {A K : Type} (lt : K -> K -> bool) (key : A -> K).

Lemma insert_sorted_perm x l : insert_sorted lt key x l ≡ₚ x :: l.
Proof.
  induction l as [|y l IH]; simpl; [done|].
  destruct (lt (key y) (key x)); [|done].
  rewrite IH. apply Permutation_swap.
Qed.

Lemma sorted_perm l : sorted lt key l ≡ₚ l.
Proof.
  induction l as [|x l IH]; simpl; [done|].
  rewrite insert_sorted_perm. by rewrite IH.
Qed.

Lemma sorted_nil_inv l : sorted lt key l = [] -> l = [].
Proof.
  intros H. apply Permutation_nil_r. rewrite <- H. symmetry. apply sorted_perm.
Qed.

(** On keys that [ok] holds of, [lt] is the strict part of a total
    preorder [le]. *)
Context (ok : K -> Prop) (le : K -> K -> Prop).
Hypothesis lt_le : forall a b, ok a -> ok b -> lt a b = true -> le a b.
Hypothesis not_lt_le : forall a b, ok a -> ok b -> lt a b = false -> le b a.
Hypothesis le_trans :
  forall a b c, ok a -> ok b -> ok c -> le a b -> le b c -> le a c.

Let R (x y : A) : Prop := le (key x) (key y).

Lemma insert_sorted_StronglySorted x l :
  ok (key x) -> Forall (fun y => ok (key y)) l ->
  StronglySorted R l -> StronglySorted R (insert_sorted lt key x l).
Proof.
  intros Hx Hok Hs. induction Hs as [|y l Hs IH Hy]; simpl.
  - repeat constructor.
  - apply Forall_cons in Hok as [Hoky Hok].
    destruct (lt (key y) (key x)) eqn:E.
    + constructor; [by apply IH|].
      rewrite insert_sorted_perm. constructor; [by apply lt_le|done].
    + assert (R x y) as Hxy by (by apply not_lt_le).
      constructor; [by constructor|]. constructor; [done|].
      rewrite Forall_forall in Hy. rewrite Forall_forall in Hok.
      apply Forall_forall. intros z Hz.
      apply (le_trans _ (key y)); [done|done|by apply Hok|done|by apply Hy].
Qed.

Lemma sorted_StronglySorted l :
  Forall (fun y => ok (key y)) l -> StronglySorted R (sorted lt key l).
Proof.
  induction 1 as [|x l Hx Hl IH]; simpl; [constructor|].
  apply insert_sorted_StronglySorted; [done| |done].
  by rewrite sorted_perm.
Qed.

End SortedFacts.



Lemma StronglySorted_impl {A} (R1 R2 : relation A) l :
  (forall x y, R1 x y -> R2 x y) -> StronglySorted R1 l -> StronglySorted R2 l.
Proof.
  intros HR. induction 1 as [|x l Hs IH Hx]; constructor; [done|].
  eapply Forall_impl; [exact Hx|]. intros y. apply HR.
Qed.

(** ** The outline *)

Section Outline.
Context {U : UnicodeDB}.




Lemma dedup_sublist seen hs : dedup seen hs `sublist_of` hs.
Proof.
  revert seen. induction hs as [|h hs IH]; intros seen; simpl; [constructor|].
  case_bool_decide; [by apply sublist_cons|by apply sublist_skip].
Qed.





Lemma collect_headings_elem_of self blocks h :
  h ∈ collect_headings self blocks <->
  exists b lv, b ∈ blocks /\ _is_heading self b = true
               /\ _get_level self b = Some lv /\ h = heading_of lv b.
Proof.
  unfold collect_headings. rewrite list_elem_of_In, in_flat_map. split.
  - intros (b & Hb%list_elem_of_In & Hh). exists b.
    destruct (_is_heading self b); [|destruct Hh].
    destruct (_get_level self b) as [lv|]; [|destruct Hh].
    exists lv. destruct Hh as [<-|[]]. done.
  - intros (b & lv & Hb & Hh & Hl & ->). exists b.
    split; [by apply list_elem_of_In|]. rewrite Hh, Hl. by left.
Qed.




Lemma _extract_title_total (doc : Document) :
  exists title, _extract_title doc (_extract_all_blocks doc) = Some title.
Proof.
  unfold _extract_title.
  destruct (filter _ (_extract_all_blocks doc)) as [|b bs] eqn:Hf; [by eexists|].
  destruct (sorted _ _ (b :: bs)) as [|b0 srt] eqn:Hs.
  { by apply sorted_nil_inv in Hs. }
  destruct doc as [|page0 doc]; [discriminate Hf|]. by eexists.
Qed.


End Outline.

(** ** The matcher against the relation of matches *)

Section Matcher.
Context {U : UnicodeDB}.

Lemma orelse_is_Some_l {A} (x y : option A) : is_Some x -> is_Some (orelse x y).
Proof. by intros [v ->]. Qed.

Lemma orelse_is_Some_r {A} (x y : option A) : is_Some y -> is_Some (orelse x y).
Proof. destruct x; simpl; eauto. Qed.

Lemma star_loop_complete r n :
  (forall st st' k, matches r st st' -> is_Some (k st') -> is_Some (mtch r st k)) ->
  forall st st' k,
    matches (Star r) st st' -> (length (m_rest st) <= n)%nat ->
    is_Some (k st') -> is_Some (star_loop (mtch r) n st k).
Proof.
  intros Hr. induction n as [|n IH]; intros st st' k Hm Hn Hk.
  - inversion Hm; subst; [done|lia].
  - simpl. inversion Hm as [| | | | | |? ?|? ? st1 ? Hm1 Hlt Hm2| | |]; subst.
    + by apply orelse_is_Some_r.
    + apply orelse_is_Some_l. apply (Hr _ st1); [done|].
      apply Nat.ltb_lt in Hlt as Hlt'. rewrite Hlt'.
      apply (IH _ st'); [done|lia|done].
Qed.

(** Every match is found: when a match of [r] leads to a position from
    which the rest of the search succeeds, the search succeeds. *)
Lemma mtch_complete r st st' k :
  matches r st st' -> is_Some (k st') -> is_Some (mtch r st k).
Proof.
  revert st st' k. induction r as [| |p|r1 IH1 r2 IH2|r IH|r IH|r IH|n r IH|n];
    intros st st' k Hm Hk; simpl.
  - inversion Hm as [? Hp| | | | | | | | | |]; subst. by rewrite Hp.
  - inversion Hm as [|? Hb| | | | | | | | |]; subst. by rewrite Hb.
  - inversion Hm as [| |? ? c s' Hr Hp| | | | | | | |]; subst. by rewrite Hr, Hp.
  - inversion Hm as [| | |? ? ? st1 ? Hm1 Hm2| | | | | | |]; subst.
    apply (IH1 _ st1); [done|]. by apply (IH2 _ st').
  - inversion Hm; subst.
    + apply orelse_is_Some_l. by apply (IH _ st').
    + by apply orelse_is_Some_r.
  - by eapply star_loop_complete.
  - inversion Hm as [| | | | | | | |? ? st1 ? Hm1 Hm2| |]; subst.
    apply (IH _ st1); [done|]. by eapply star_loop_complete.
  - inversion Hm as [| | | | | | | | |? ? ? st1 Hm1|]; subst.
    by apply (IH _ st1).
  - inversion Hm as [| | | | | | | | | |? ? w s' Hg Hp]; subst. by rewrite Hg, Hp.
Qed.

Lemma orelse_Some_inv {A} (x y : option A) v :
  orelse x y = Some v -> x = Some v \/ y = Some v.
Proof. destruct x; simpl; auto. Qed.

Lemma star_loop_sound r n :
  (forall st k v, mtch r st k = Some v ->
                  exists st', matches r st st' /\ k st' = Some v) ->
  forall st k v,
    star_loop (mtch r) n st k = Some v ->
    exists st', matches (Star r) st st' /\ k st' = Some v.
Proof.
  intros Hr. induction n as [|n IH]; intros st k v Hs; simpl in Hs.
  - exists st. split; [constructor|done].
  - apply orelse_Some_inv in Hs as [Hs|Hs].
    + apply Hr in Hs as (st1 & Hm1 & Hs).
      destruct (length (m_rest st1) <? length (m_rest st))%nat eqn:Hlt;
        [|discriminate Hs].
      apply IH in Hs as (st' & Hm2 & Hk). exists st'. split; [|done].
      apply Nat.ltb_lt in Hlt. by eapply M_Star_cons.
    + exists st. split; [constructor|done].
Qed.

(** Only matches are found: the result of a search is the result of the
    rest of the search from the end of some match. *)
Lemma mtch_sound r st k v :
  mtch r st k = Some v -> exists st', matches r st st' /\ k st' = Some v.
Proof.
  revert st k v. induction r as [| |p|r1 IH1 r2 IH2|r IH|r IH|r IH|n r IH|n];
    intros st k v Hs; simpl in Hs.
  - destruct (m_prev st) eqn:Hp; [discriminate Hs|].
    exists st. split; [by constructor|done].
  - destruct (is_wordb st) eqn:Hb; [|discriminate Hs].
    exists st. split; [by constructor|done].
  - destruct (m_rest st) as [|c s'] eqn:Hr; [discriminate Hs|].
    destruct (p c) eqn:Hp; [|discriminate Hs]. eexists. split; [by econstructor|done].
  - apply IH1 in Hs as (st1 & Hm1 & Hs). apply IH2 in Hs as (st2 & Hm2 & Hk).
    exists st2. split; [by econstructor|done].
  - apply orelse_Some_inv in Hs as [Hs|Hs].
    + apply IH in Hs as (st' & Hm & Hk). exists st'. split; [by apply M_Opt_one|done].
    + exists st. split; [apply M_Opt_none|done].
  - by eapply star_loop_sound.
  - apply IH in Hs as (st1 & Hm1 & Hs).
    eapply star_loop_sound in Hs as (st2 & Hm2 & Hk); [|exact IH].
    exists st2. split; [by econstructor|done].
  - apply IH in Hs as (st1 & Hm1 & Hk). eexists. split; [by econstructor|done].
  - destruct (get_grp n (m_grps st)) as [w|] eqn:Hg; [|discriminate Hs].
    destruct (strip_prefix w (m_rest st)) as [s'|] eqn:Hp; [|discriminate Hs].
    eexists. split; [by econstructor|done].
Qed.

Lemma match_at_sound r prev s st' :
  match_at r prev s = Some st' -> matches r (MState prev s []) st'.
Proof.
  intros (st'' & Hm & [= <-])%mtch_sound. done.
Qed.

(** [re.match] succeeds exactly when the pattern has a match at the start
    of the subject. *)
Lemma re_match_spec r s :
  re_match r s = true <-> exists st', matches r (MState None s []) st'.
Proof.
  unfold re_match. split.
  - destruct (match_at _ _ _) as [st'|] eqn:E; [|done]. intros _.
    exists st'. by apply match_at_sound.
  - intros [st' Hm]. unfold match_at.
    destruct (mtch_complete r _ st' Some Hm) as [v ->]; done.
Qed.

Lemma consume_app xs ys st : consume (xs ++ ys) st = consume ys (consume xs st).
Proof. revert st. induction xs as [|c xs IH]; intros st; simpl; [done|apply IH]. Qed.

Lemma consume_rest xs s st :
  m_rest st = xs ++ s -> m_rest (consume xs st) = s.
Proof.
  revert st. induction xs as [|c xs IH]; intros st Hr; simpl; [done|].
  apply IH. simpl. by rewrite Hr.
Qed.

Lemma consume_grps xs st : m_grps (consume xs st) = m_grps st.
Proof. revert st. induction xs as [|c xs IH]; intros st; simpl; [done|by rewrite IH]. Qed.

Lemma matches_cls p c s st :
  m_rest st = c :: s -> p c = true -> matches (Cls p) st (consume [c] st).
Proof.
  intros Hr Hp. simpl. rewrite Hr. simpl. by apply M_Cls.
Qed.

(** A run of characters of a class is a match of the starred class. *)
Lemma matches_star_cls p xs s st :
  Forall (fun c => p c = true) xs -> m_rest st = xs ++ s ->
  matches (Star (Cls p)) st (consume xs st).
Proof.
  intros Hxs. revert st. induction Hxs as [|c xs Hc Hxs IH]; intros st Hr; simpl.
  - constructor.
  - change (m_rest st = c :: (xs ++ s)) in Hr. rewrite Hr.
    change (tail (c :: (xs ++ s))) with (xs ++ s). eapply M_Star_cons.
    + eapply M_Cls; [exact Hr|done].
    + rewrite Hr. cbn [m_rest length]. lia.
    + by apply IH.
Qed.

Lemma matches_plus_cls p xs s st :
  xs <> [] -> Forall (fun c => p c = true) xs -> m_rest st = xs ++ s ->
  matches (Plus (Cls p)) st (consume xs st).
Proof.
  intros Hne Hxs Hr. destruct xs as [|c xs]; [done|].
  apply Forall_cons in Hxs as [Hc Hxs]. simpl.
  change (m_rest st = c :: (xs ++ s)) in Hr. rewrite Hr.
  change (tail (c :: (xs ++ s))) with (xs ++ s). eapply M_Plus.
  - eapply M_Cls; [exact Hr|done].
  - by eapply matches_star_cls.
Qed.

End Matcher.

(** ** The patterns of the program *)

Section Patterns.
Context {U : UnicodeDB}.

Lemma matches_star_cls_inv p st st' :
  matches (Star (Cls p)) st st' ->
  exists xs, Forall (fun c => p c = true) xs
             /\ m_rest st = xs ++ m_rest st' /\ st' = consume xs st.
Proof.
  intros Hm. remember (Star (Cls p)) as r eqn:Hr.
  induction Hm as [| | | | | |r0 st|r0 st st1 st2 Hm1 _ Hlt Hm2 IH| | |];
    try discriminate Hr.
  - by exists [].
  - injection Hr as ->. destruct (IH eq_refl) as (xs & Hxs & Hrest & ->).
    inversion Hm1 as [| |? ? c s' Hst Hc| | | | | | | |]; subst.
    exists (c :: xs). cbn [consume]. rewrite Hst. cbn [tail].
    split_and!; [by constructor| |done].
    cbn [m_rest] in Hrest. rewrite <- app_comm_cons. by rewrite <- Hrest.
Qed.

Lemma matches_plus_cls_inv p st st' :
  matches (Plus (Cls p)) st st' ->
  exists c xs, p c = true /\ Forall (fun c => p c = true) xs
               /\ m_rest st = (c :: xs) ++ m_rest st' /\ st' = consume (c :: xs) st.
Proof.
  intros Hm. inversion Hm as [| | | | | | | |? ? st1 ? Hm1 Hm2| |]; subst.
  inversion Hm1 as [| |? ? c s' Hst Hc| | | | | | | |]; subst.
  apply matches_star_cls_inv in Hm2 as (xs & Hxs & Hrest & ->).
  exists c, xs. cbn [consume]. rewrite Hst. cbn [tail].
  split_and!; [done|done| |done].
  cbn [m_rest] in Hrest. rewrite <- app_comm_cons. by rewrite <- Hrest.
Qed.

Lemma consumed_consume xs s st :
  m_rest st = xs ++ s -> consumed st (consume xs st) = xs.
Proof.
  intros Hr. unfold consumed. rewrite (consume_rest xs s st Hr), Hr, length_app.
  replace (length xs + length s - length s)%nat with (length xs) by lia.
  by rewrite take_app_length.
Qed.

(** Groups of digits, each after a dot, are matched by the starred group of
    the numbering pattern. *)
Lemma matches_dotted_groups gs s st :
  Forall (fun g => g <> [] /\ Forall (fun c => isdigit c = true) g) gs ->
  m_rest st = concat ((fun g => 46 :: g) <$> gs) ++ s ->
  exists st', matches (Star (Grp 1 (Cat cls_dot (Plus cls_d)))) st st'
              /\ m_rest st' = s.
Proof.
  intros Hgs. revert st. induction Hgs as [|g gs [Hne Hg] Hgs IH]; intros st Hr.
  - exists st. split; [constructor|done].
  - rewrite fmap_cons in Hr. simpl in Hr. rewrite <- app_assoc in Hr.
    set (st1 := MState (Some 46) (g ++ concat ((fun g => 46 :: g) <$> gs) ++ s) (m_grps st)).
    assert (matches (Cat cls_dot (Plus cls_d)) st (consume g st1)) as Hm.
    { eapply M_Cat; [by eapply M_Cls|]. by eapply matches_plus_cls. }
    assert (m_rest (consume g st1) = concat ((fun g => 46 :: g) <$> gs) ++ s) as Hr1
      by by apply consume_rest.
    destruct (IH (set_grp 1 (consumed st (consume g st1)) (consume g st1)))
      as (st' & Hm' & Hr'); [done|].
    exists st'. split; [|done].
    eapply M_Star_cons; [by apply M_Grp| |exact Hm'].
    simpl. rewrite Hr1, Hr. simpl. rewrite !length_app. lia.
Qed.

Lemma numbered_matches ds gs w rest :
  ds <> [] -> Forall (fun c => isdigit c = true) ds ->
  Forall (fun g => g <> [] /\ Forall (fun c => isdigit c = true) g) gs ->
  isspace w = true ->
  re_match re_numbered (ds ++ concat ((fun g => 46 :: g) <$> gs) ++ w :: rest) = true.
Proof.
  intros Hne Hds Hgs Hw. apply re_match_spec.
  set (st0 := MState None (ds ++ concat ((fun g => 46 :: g) <$> gs) ++ w :: rest) []).
  assert (matches (Plus cls_d) st0 (consume ds st0)) as Hd
    by (by eapply matches_plus_cls).
  destruct (matches_dotted_groups gs (w :: rest) (consume ds st0) Hgs)
    as (st1 & Hm1 & Hr1); [by apply consume_rest|].
  eexists. unfold re_numbered.
  eapply M_Cat; [by apply M_Bol|].
  eapply M_Cat; [exact Hd|].
  eapply M_Cat; [exact Hm1|]. by eapply M_Cls.
Qed.

Lemma matches_cls_rest p st st' :
  matches (Cls p) st st' -> exists c, p c = true /\ m_rest st = c :: m_rest st'.
Proof. inversion 1; subst. eauto. Qed.

Lemma matches_plus_cls_rest p st st' :
  matches (Plus (Cls p)) st st' ->
  exists c xs, p c = true /\ Forall (fun c => p c = true) xs
               /\ m_rest st = (c :: xs) ++ m_rest st'.
Proof.
  intros (c & xs & Hc & Hxs & Hr & _)%matches_plus_cls_inv. eauto.
Qed.

Lemma matches_bol_inv st st' : matches Bol st st' -> st' = st.
Proof. by inversion 1. Qed.

Lemma matches_cat_inv r1 r2 st st' :
  matches (Cat r1 r2) st st' -> exists st1, matches r1 st st1 /\ matches r2 st1 st'.
Proof. inversion 1; subst. eauto. Qed.

Lemma chr_true a c : chr a c = true -> c = N_of_ascii a.
Proof. unfold chr. by intros ?%N.eqb_eq. Qed.

(** A text that starts with digits, then an optional [)] or [.], then a
    whitespace character, matches the list-marker pattern. *)
Lemma list_marker_matches ds mk w rest :
  ds <> [] -> Forall (fun c => isdigit c = true) ds ->
  mk = [] \/ mk = lit ")" \/ mk = lit "." ->
  isspace w = true ->
  re_match re_list_marker (ds ++ mk ++ w :: rest) = true.
Proof.
  intros Hne Hds Hmk Hw. apply re_match_spec.
  set (st0 := MState None (ds ++ mk ++ w :: rest) []).
  assert (matches (Plus cls_d) st0 (consume ds st0)) as Hd
    by (by eapply matches_plus_cls).
  assert (m_rest (consume ds st0) = mk ++ w :: rest) as Hr
    by (by apply consume_rest).
  assert (exists st2, matches (Opt (Cls (fun c => chr ")" c || chr "." c)))
                        (consume ds st0) st2 /\ m_rest st2 = [w] ++ rest)
    as (st2 & Hopt & Hr2).
  { destruct Hmk as [->|[->| ->]].
    - eexists. split; [apply M_Opt_none|done].
    - eexists. split; [apply M_Opt_one; eapply M_Cls; [exact Hr|done]|done].
    - eexists. split; [apply M_Opt_one; eapply M_Cls; [exact Hr|done]|done]. }
  exists (consume [w] st2). unfold re_list_marker.
  eapply M_Cat; [by apply M_Bol|].
  eapply M_Cat; [exact Hd|].
  eapply M_Cat; [exact Hopt|].
  eapply (matches_plus_cls isspace [w]); [done|by constructor|exact Hr2].
Qed.

Ltac invert_matches :=
  repeat match goal with
  | H : matches (Cat _ _) _ _ |- _ =>
      apply matches_cat_inv in H as (? & ? & ?)
  | H : matches Bol _ _ |- _ => apply matches_bol_inv in H as ->
  | H : matches (Cls _) _ _ |- _ => apply matches_cls_rest in H as (? & ? & ?)
  | H : matches (Plus (Cls _)) _ _ |- _ =>
      apply matches_plus_cls_rest in H as (? & ? & ? & ? & ?)
  | H : chr _ _ = true |- _ => apply chr_true in H as ->
  end.

(** A text that a numbering pattern of the level assigner matches has a
    numbering prefix in the sense of the classifier. *)
Lemma level_pattern_numbered t :
  re_match re_three_groups t = true \/ re_match re_two_groups t = true
  \/ re_match re_one_group t = true ->
  re_match re_numbered t = true.
Proof.
  rewrite !re_match_spec.
  unfold re_three_groups, re_two_groups, re_one_group, cls_d, cls_dot, cls_s.
  intros [[st' Hm]|[[st' Hm]|[st' Hm]]]; invert_matches;
    repeat match goal with
    | H : m_rest (MState _ ?t _) = _ |- _ => cbn [m_rest] in H
    | H : m_rest ?st = _ |- _ => rewrite H in *; clear H
    end; apply re_match_spec.
  - match goal with
    | H : t = (?c1 :: ?x1) ++ _ :: (?c2 :: ?x2) ++ _ :: (?c3 :: ?x3) ++ (?w :: ?ws) ++ ?r |- _ =>
        replace t with ((c1 :: x1) ++ concat ((fun g => 46 :: g) <$> [c2 :: x2; c3 :: x3])
                        ++ w :: (ws ++ r))
          by (rewrite H; simpl; by rewrite ?app_nil_r, <- ?app_assoc)
    end.
    apply numbered_matches; [done|by constructor| |done].
    repeat constructor; done.
  - match goal with
    | H : t = (?c1 :: ?x1) ++ _ :: (?c2 :: ?x2) ++ (?w :: ?ws) ++ ?r |- _ =>
        replace t with ((c1 :: x1) ++ concat ((fun g => 46 :: g) <$> [c2 :: x2])
                        ++ w :: (ws ++ r))
          by (rewrite H; simpl; by rewrite ?app_nil_r, <- ?app_assoc)
    end.
    apply numbered_matches; [done|by constructor| |done].
    repeat constructor; done.
  - match goal with
    | H : t = (?c1 :: ?x1) ++ (?w :: ?ws) ++ ?r |- _ =>
        replace t with ((c1 :: x1) ++ concat ((fun g => 46 :: g) <$> [])
                        ++ w :: (ws ++ r))
          by (rewrite H; simpl; by rewrite ?app_nil_r, <- ?app_assoc)
    end.
    apply numbered_matches; [done|by constructor|constructor|done].
Qed.

(** X6.  So a text that the numbering pattern of the classifier does not
    match is matched by none of the numbering patterns of the level
    assigner. *)
Lemma no_numbering_prefix_no_level_pattern t :
  re_match re_numbered t = false ->
  re_match re_three_groups t = false /\ re_match re_two_groups t = false
  /\ re_match re_one_group t = false.
Proof.
  intros Hn. pose proof (level_pattern_numbered t) as H.
  destruct (re_match re_three_groups t), (re_match re_two_groups t),
    (re_match re_one_group t); try done; rewrite H in Hn; auto; discriminate.
Qed.

End Patterns.

(** ** The substitutions of the title normalization *)

Section Normalization.
Context {U : UnicodeDB}.

Lemma lstrip_head t c s : lstrip t = c :: s -> isspace c = false.
Proof.
  induction t as [|a t IH]; simpl; [done|].
  destruct (isspace a) eqn:Ha; [done|]. by intros [= <- _].
Qed.

Lemma lstrip_snoc l c : isspace c = false -> lstrip (l ++ [c]) = lstrip l ++ [c].
Proof.
  intros Hc. induction l as [|a l IH]; simpl; [by rewrite Hc|].
  by destruct (isspace a).
Qed.


Lemma sub_spaces_nonspace prev c s :
  isspace c = false ->
  sub_from re_spaces [RChr 32] prev 0 (c :: s) =
  c :: sub_from re_spaces [RChr 32] (Some c) 0 s.
Proof. intros Hc. simpl. unfold match_at. simpl. by rewrite Hc. Qed.


(** What the pattern of a repeated word leaves of the groups. *)
Lemma repetition_keeps_grps st st' :
  matches (Cat (Cls (chr " ")) (Cat (Ref 1) Wordb)) st st' ->
  m_grps st' = m_grps st.
Proof.
  intros (st1 & H1 & (st2 & H2 & H3)%matches_cat_inv)%matches_cat_inv.
  inversion H1; subst. inversion H2; subst. inversion H3; subst. done.
Qed.

Lemma repetitions_keep_word st st' :
  matches (Star (Grp 2 (Cat (Cls (chr " ")) (Cat (Ref 1) Wordb)))) st st' ->
  get_grp 1 (m_grps st') = get_grp 1 (m_grps st).
Proof.
  intros Hm. remember (Star (Grp 2 (Cat (Cls (chr " ")) (Cat (Ref 1) Wordb)))) as r eqn:Hr.
  induction Hm as [| | | | | |r0 st|r0 st st1 st2 Hm1 _ Hlt Hm2 IH| | |];
    try discriminate Hr; [done|].
  injection Hr as ->. rewrite (IH eq_refl).
  inversion Hm1 as [| | | | | | | | |? ? ? st3 Hm3|]; subst. simpl.
  by rewrite (repetition_keeps_grps _ _ Hm3).
Qed.





End Normalization.

(** ** The title selector *)

Section TitleSelector.
Context {U : UnicodeDB}.

Lemma title_scan_skip top_size page_width b before after :
  title_candidate top_size page_width b = false ->
  title_scan top_size page_width (before ++ b :: after) =
  title_scan top_size page_width (before ++ after).
Proof.
  intros Hb. induction before as [|c before IH].
  - simpl app. by rewrite title_scan_cons, Hb.
  - rewrite <- !app_comm_cons, !title_scan_cons. by rewrite IH.
Qed.

(** The scan returns the title of the first block that is a candidate. *)
Lemma title_scan_find top_size page_width bs :
  title_scan top_size page_width bs =
  match List.find (title_candidate top_size page_width) bs with
  | Some c => accepted_title c
  | None => default_title
  end.
Proof.
  induction bs as [|b bs IH]; [done|].
  rewrite title_scan_cons. simpl List.find.
  by destruct (title_candidate top_size page_width b).
Qed.

Lemma title_key_lt_le a b :
  title_key_lt a b = true -> title_key_le a b.
Proof.
  destruct a as [s y], b as [s' y']. unfold title_key_lt, tuple_lt, title_key_le. simpl.
  destruct (F.eq s s') eqn:Es; simpl; [|by left].
  destruct (F.eq y y'); simpl; [done|]. intros H. right. split; [done|by apply F_lt_le].
Qed.

Lemma title_key_not_lt_le a b :
  not_nan a.1 /\ not_nan a.2 -> not_nan b.1 /\ not_nan b.2 ->
  title_key_lt a b = false -> title_key_le b a.
Proof.
  destruct a as [s y], b as [s' y']. unfold title_key_lt, tuple_lt, title_key_le. simpl.
  intros [Hs Hy] [Hs' Hy']. destruct (F.eq s s') eqn:Es; simpl.
  - rewrite F_eq_sym in Es. destruct (F.eq y y') eqn:Ey; simpl; intros H; right;
      (split; [done|]).
    + apply F_eq_le. by rewrite F_eq_sym.
    + by apply F_not_lt_le.
  - intros H. left. by apply F_not_lt_not_eq.
Qed.

Lemma title_key_le_trans a b c :
  title_key_le a b -> title_key_le b c -> title_key_le a c.
Proof.
  unfold title_key_le. intros [H1|[H1 H1']] [H2|[H2 H2']].
  - left. by eapply F_lt_trans.
  - left. by eapply F_lt_eq_trans.
  - left. by eapply F_eq_lt_trans.
  - right. split; [by eapply F_eq_trans|by eapply F_le_trans].
Qed.

(** The blocks are scanned from the largest size down, and from the top
    of the page down among blocks of one size. *)
Lemma sorted_scan_order blocks :
  Forall (fun b => not_nan (size b) /\ not_nan (y0 b)) blocks ->
  StronglySorted scan_order (sorted title_key_lt title_sort_key blocks).
Proof.
  intros Hnn.
  assert (StronglySorted (fun a b => title_key_le (title_sort_key a) (title_sort_key b))
            (sorted title_key_lt title_sort_key blocks)) as Hs.
  { apply (sorted_StronglySorted title_key_lt title_sort_key
             (fun k => not_nan k.1 /\ not_nan k.2) title_key_le).
    - intros a b _ _. apply title_key_lt_le.
    - apply title_key_not_lt_le.
    - intros a b c _ _ _. apply title_key_le_trans.
    - eapply Forall_impl; [exact Hnn|]. intros b [Hs Hy]. simpl.
      split; [|done]. unfold not_nan. by rewrite F_is_nan_opp. }
  eapply StronglySorted_impl; [|exact Hs].
  intros a b. unfold title_key_le, scan_order, title_sort_key, F.gt. simpl.
  change (PrimFloat.ltb (size b) (size a)) with (F.lt (size b) (size a)).
  by rewrite F_lt_opp, F_eq_opp.
Qed.


(** C10.  A block whose trimmed text starts with digits, an optional [)]
    or [.], and a whitespace character is not a title candidate, wherever it
    stands among the blocks scanned: the scan returns what it returns without
    the block.  The marker may be absent, as in ["2024 Annual Review"]. *)
Theorem numeric_marker_exclusion top_size page_width b ds mk w rest :
  ds <> [] -> Forall (fun c => isdigit c = true) ds ->
  mk = [] \/ mk = lit ")" \/ mk = lit "." ->
  isspace w = true ->
  strip (text b) = ds ++ mk ++ w :: rest ->
  title_candidate top_size page_width b = false
  /\ forall before after,
       title_scan top_size page_width (before ++ b :: after) =
       title_scan top_size page_width (before ++ after).
Proof.
  intros Hne Hds Hmk Hw Htext.
  assert (title_candidate top_size page_width b = false) as Hc.
  { unfold title_candidate.
    rewrite Htext, list_marker_matches by done. simpl.
    by rewrite andb_false_r. }
  split; [done|]. intros before after. by apply title_scan_skip.
Qed.


End TitleSelector.

(** ** The body-font estimator *)

Section BodyFont.
Context {U : UnicodeDB}.















Lemma fold_left_flat_map {A B C} (f : A -> C -> A) (g : B -> list C) l a :
  fold_left f (flat_map g l) a = fold_left (fun a x => fold_left f (g x) a) l a.
Proof.
  revert a. induction l as [|x l IH]; intros a; simpl; [done|].
  by rewrite fold_left_app, IH.
Qed.

Lemma font_counts_sample_keys doc :
  font_counts doc = fold_left (fun fc k => incr k fc) (sample_keys doc) [].
Proof.
  unfold font_counts, sample_keys, sample_sizes, sample_blocks.
  rewrite <- (fold_left_flat_map
    (fun fc b => if (5 <? length (text b))%nat && negb (bold b)
                 then incr (F.round1 (size b)) fc else fc)).
  generalize (flat_map _extract_text_blocks (take (Nat.min 3 (length doc)) doc)).
  generalize (@nil (float * Z)).
  intros fc l. revert fc. induction l as [|b l IH]; intros fc; [done|].
  simpl. rewrite filter_cons.
  destruct (decide (qualifies b)) as [[Hlen Hbold]|Hn].
  - apply Nat.ltb_lt in Hlen. rewrite Hlen, Hbold. simpl. apply IH.
  - rewrite IH. destruct (Nat.ltb_spec 5 (length (text b))); [|done].
    destruct (bold b) eqn:Hb; [done|]. destruct Hn. by split.
Qed.



End BodyFont.

(** ** Documents without blocks *)

Lemma flat_map_nil_take {A B} (f : A -> list B) (l : list A) n :
  flat_map f l = [] -> flat_map f (take n l) = [].
Proof.
  revert n. induction l as [|x l IH]; intros n H; [by destruct n|].
  simpl in H. apply app_eq_nil in H as [Hx Hl].
  destruct n as [|n]; [done|]. simpl. rewrite Hx. by apply IH.
Qed.

(** C4.  A document without pages is processed without an error: the body
    font size becomes 10.0 and the record returned has the fallback title and
    an empty outline.  The same holds of every document whose pages have no
    usable block. *)
Theorem empty_document_fallback {U : UnicodeDB} (self : PDFOutlineExtractor) :
  process_pdf self [] =
    (set_body_font_size self 10.0%float,
     Some {| title := lit "Document Title"; outline := [] |})
  /\ forall doc,
       _extract_all_blocks doc = [] ->
       process_pdf self doc =
         (set_body_font_size self 10.0%float,
          Some {| title := lit "Document Title"; outline := [] |}).
Proof.
  split; [reflexivity|]. intros doc Hblocks.
  unfold process_pdf, _analyze_body_font. rewrite Hblocks.
  rewrite font_counts_sample_keys. unfold sample_keys, sample_sizes, sample_blocks.
  rewrite flat_map_nil_take by exact Hblocks. reflexivity.
Qed.

(** ** Further properties of the pipeline *)

Section Pipeline.
Context {U : UnicodeDB}.

(** X1.  Processing returns a record for every document: its title is the one
    [_extract_title] finds in the blocks of the document, and its outline
    lists the headings extracted with the estimated body font size, in their
    order. *)
Theorem process_pdf_returns_record (self : PDFOutlineExtractor) (doc : Document) :
  exists t,
    _extract_title doc (_extract_all_blocks doc) = Some t
    /\ process_pdf self doc =
       (_analyze_body_font self doc,
        Some {| title := t;
                outline := entry_of <$> _extract_headings (_analyze_body_font self doc)
                                          (_extract_all_blocks doc) |}).
Proof.
  destruct (_extract_title_total doc) as [t Ht]. exists t. split; [done|].
  unfold process_pdf. by rewrite Ht.
Qed.

(** X3.  The title is the fallback or has more than 5 characters, and it
    is the fallback when no block is on page 1. *)
Theorem title_fallback_or_long (doc : Document) (blocks : list TextBlock) :
  (forall t, _extract_title doc blocks = Some t ->
             t = lit "Document Title" \/ (5 < length t)%nat)
  /\ (Forall (fun b => page_num b <> 1%Z) blocks ->
      _extract_title doc blocks = Some (lit "Document Title")).
Proof.
  split.
  - unfold _extract_title. intros t.
    destruct (filter _ blocks) as [|b bs]; [intros [= <-]; by left|].
    destruct (sorted _ _ (b :: bs)) as [|b0 srt]; [done|].
    destruct doc as [|page0 doc]; [done|].
    rewrite title_scan_find. intros Ht. apply (inj Some) in Ht. subst t.
    destruct (List.find _ _) as [c|]; [|by left].
    unfold accepted_title.
    destruct (Nat.ltb_spec 5 (length (normalize_title (strip (text c)))));
      [by right|by left].
  - intros Hb. unfold _extract_title.
    replace (filter (fun b => page_num b = 1%Z) blocks) with (@nil TextBlock); [done|].
    symmetry. induction Hb as [|b bs Hb _ IH]; [done|].
    by rewrite filter_cons_False.
Qed.

(** X4.  Every entry of the outline is the trimmed text of a block that
    has at least three characters. *)
Theorem outline_entries_not_short (bfs : float) (blocks : list TextBlock) (h : Heading) :
  h ∈ _extract_headings (set_body_font_size __init__ bfs) blocks ->
  (3 <= length (h_text h))%nat.
Proof.
  intros Hh.
  assert (h ∈ collect_headings (set_body_font_size __init__ bfs) blocks) as Hc.
  { rewrite <- (sorted_perm heading_key_lt heading_sort_key).
    eapply elem_of_sublist; [exact Hh|apply dedup_sublist]. }
  apply collect_headings_elem_of in Hc as (b & lv & _ & Hhead & _ & ->).
  unfold _is_heading in Hhead. simpl in *.
  destruct (Nat.ltb_spec (length (strip (text b))) 3); [discriminate Hhead|done].
Qed.

Lemma strip_prefix_app p s : strip_prefix p (p ++ s) = Some s.
Proof. induction p as [|a p IH]; simpl; [done|]. by rewrite N.eqb_refl. Qed.

Lemma startswith_head_ne c s a p : a <> c -> startswith (c :: s) (a :: p) = false.
Proof.
  intros Hne. unfold startswith. cbn [strip_prefix].
  by destruct (N.eqb_spec a c).
Qed.

Lemma replace_pdf_after_stem stem :
  Forall (fun c => c <> 46) stem ->
  replace (stem ++ lit ".pdf") (lit ".pdf") (lit ".json") = stem ++ lit ".json".
Proof.
  unfold replace. induction 1 as [|c stem Hc _ IH]; [done|].
  rewrite <- !app_comm_cons. cbn [replace_from].
  assert (startswith (c :: stem ++ lit ".pdf") (lit ".pdf") = false) as ->
    by (apply (startswith_head_ne c _ 46 (lit "pdf")); congruence).
  by rewrite IH.
Qed.

(** X5.  A name made of ASCII characters without a dot, followed by [.pdf], is
    processed and its outline is written under the same name with [.json]
    for [.pdf]. *)
Theorem output_filename_plain_pdf (stem : pystr) :
  Forall (fun c => is_ascii c = true /\ c <> 46) stem ->
  output_filename (stem ++ lit ".pdf") = Some (stem ++ lit ".json").
Proof.
  intros Hstem. unfold output_filename.
  assert (lower (stem ++ lit ".pdf") = (ascii_lower <$> stem) ++ lit ".pdf") as ->.
  { unfold lower. rewrite forallb_app.
    replace (forallb is_ascii stem) with true.
    - simpl. by rewrite map_app.
    - symmetry. apply forallb_forall. intros c Hc%list_elem_of_In.
      rewrite Forall_forall in Hstem. by apply Hstem. }
  unfold endswith, startswith. rewrite rev_app_distr, strip_prefix_app.
  rewrite replace_pdf_after_stem; [done|].
  eapply Forall_impl; [exact Hstem|]. by intros c [_ ?].
Qed.

Lemma bold_flag_bit flags : negb (Z.land flags 16 =? 0)%Z = Z.testbit flags 4.
Proof.
  destruct (Z.testbit flags 4) eqn:Hb.
  - apply negb_true_iff, Z.eqb_neq. intros H0.
    assert (Z.testbit (Z.land flags 16) 4 = true) as Hl
      by (rewrite Z.land_spec, Hb; reflexivity).
    rewrite H0 in Hl. discriminate Hl.
  - apply negb_false_iff, Z.eqb_eq. apply Z.bits_inj'. intros n Hn.
    rewrite Z.land_spec, Z.bits_0.
    destruct (decide (n = 4%Z)) as [->|Hne]; [by rewrite Hb|].
    change 16%Z with (2 ^ 4)%Z. rewrite Z.pow2_bits_false by done.
    apply andb_false_r.
Qed.

Lemma collect_line_spec ln :
  collect_line ln =
  (concat ((fun sp => strip (span_text sp) ++ lit " ") <$> filter usable (spans ln)),
   head (filter usable (spans ln))).
Proof.
  unfold collect_line.
  enough (forall sps line_text span_props,
    fold_left
      (fun (acc : pystr * option Span) (span : Span) =>
         let '(line_text, span_props) := acc in
         let text := strip (span_text span) in
         if bool_decide (text = []) || (length text <? 2)%nat then acc
         else (line_text ++ (text ++ lit " "),
               match span_props with None => Some span | Some _ => span_props end))
      sps (line_text, span_props)
    = (line_text ++ concat ((fun sp => strip (span_text sp) ++ lit " ") <$> filter usable sps),
       match span_props with
       | None => head (filter usable sps)
       | Some _ => span_props
       end)) as H by apply (H (spans ln) [] None).
  induction sps as [|sp sps IH]; intros line_text span_props.
  - simpl. rewrite app_nil_r. by destruct span_props.
  - cbn [fold_left]. rewrite filter_cons.
    destruct (decide (usable sp)) as [Hu|Hu]; unfold usable in Hu.
    + replace (bool_decide (strip (span_text sp) = [])
               || (length (strip (span_text sp)) <? 2)%nat) with false.
      * rewrite IH, fmap_cons. cbn [concat head]. rewrite <- !app_assoc.
        by destruct span_props.
      * symmetry. apply orb_false_iff. split.
        -- apply bool_decide_eq_false. intros Hnil. rewrite Hnil in Hu. simpl in Hu. lia.
        -- apply Nat.ltb_ge. lia.
    + replace (bool_decide (strip (span_text sp) = [])
               || (length (strip (span_text sp)) <? 2)%nat) with true; [apply IH|].
      symmetry. apply orb_true_iff. right. apply Nat.ltb_lt. lia.
Qed.

(** X2.  A line gives a block exactly when it has a usable span; the block has
    the joined texts of the usable spans, trimmed, and the size, the font, the
    bold bit (bit 4 of the flags) and the bounding box of the first of them,
    and the number of the page plus one. *)
Theorem block_of_line_first_span (page : Page) (ln : Line) :
  match filter usable (spans ln) with
  | [] => block_of_line page ln = []
  | sp :: sps =>
      exists b,
        block_of_line page ln = [b]
        /\ text b = strip (concat ((fun sp => strip (span_text sp) ++ lit " ")
                                     <$> sp :: sps))
        /\ size b = span_size sp /\ font b = span_font sp
        /\ bold b = Z.testbit (span_flags sp) 4
        /\ (x0 b, y0 b, x1 b, y1 b) = span_bbox sp
        /\ page_num b = (number page + 1)%Z
  end.
Proof.
  unfold block_of_line. rewrite collect_line_spec.
  destruct (filter usable (spans ln)) as [|sp sps] eqn:Hf; [done|].
  assert (usable sp) as Hu.
  { assert (sp ∈ filter usable (spans ln)) as Hin by (rewrite Hf; by left).
    by apply list_elem_of_filter in Hin as [? _]. }
  rewrite fmap_cons. cbn [concat head].
  destruct (strip (span_text sp)) as [|c cs] eqn:Hs.
  { unfold usable in Hu. rewrite Hs in Hu. simpl in Hu. lia. }
  rewrite <- !app_comm_cons.
  destruct (span_bbox sp) as [[[b0 b1] b2] b3] eqn:Hb.
  eexists. split; [reflexivity|]. simpl. rewrite bold_flag_bit. done.
Qed.

End Pipeline.

(** ** The theorems at concrete inputs *)

Lemma title_normalization_annual_report_witness :
  normalize_title (strip (text (example_block "Annual Annual Report   Report" 24 false 80 1)))
    = lit "Annual Report Report"
  /\ title_scan 24 600 [example_block "Annual Annual Report   Report" 24 false 80 1]
    = lit "Annual Report Report".
Proof.
  apply (title_normalization_annual_report (U := ascii_only)); vm_compute; reflexivity.
Defined.

Lemma numbering_precedence_two_groups_witness :
  _is_heading (set_body_font_size __init__ 11) (example_block "2.1 Background" 11 false 200 3) = true
  /\ _get_level (set_body_font_size __init__ 11) (example_block "2.1 Background" 11 false 200 3) = Some H2.
Proof.
  apply (numbering_precedence_two_groups (U := ascii_only)); reflexivity.
Defined.

Lemma level_threshold_boundaries_witness :
  _get_level (set_body_font_size __init__ 10) (example_block "Introduction" 14 false 200 3) = Some H1
  /\ _get_level (set_body_font_size __init__ 1) (example_block "Introduction" 1.39999 false 200 3) = Some H2.
Proof.
  split.
  - apply (level_threshold_boundaries (U := ascii_only) 10
             (example_block "Introduction" 14 false 200 3)); reflexivity.
  - apply (level_threshold_boundaries (U := ascii_only) 1
             (example_block "Introduction" 1.39999 false 200 3)); reflexivity.
Defined.

Lemma empty_document_fallback_witness :
  process_pdf __init__ [example_page 0 [example_span "7" 11 0 700]] =
    (set_body_font_size __init__ 10.0%float,
     Some {| title := lit "Document Title"; outline := [] |}).
Proof.
  apply (proj2 (empty_document_fallback (U := ascii_only) __init__)). reflexivity.
Defined.


Example outline_of_scattered_blocks :
  map (fun h => (h_level h, h_text h, h_page h))
      (_extract_headings (set_body_font_size __init__ 10) scattered_blocks)
  = [ (H1, lit "Annual Report", 1%Z); (H1, lit "1 Introduction", 1%Z);
      (H2, lit "ANNUAL REPORT", 2%Z); (H1, lit "2 Method", 2%Z);
      (H1, lit "3 Results", 2%Z) ].
Proof. vm_compute. reflexivity. Qed.



Lemma numeric_marker_exclusion_witness :
  title_candidate 24 612 (example_block "2024 Annual Review" 24 false 60 1) = false
  /\ title_scan 24 612 [example_block "2024 Annual Review" 24 false 60 1;
                        example_block "Annual Review" 23 false 90 1]
     = lit "Annual Review".
Proof.
  destruct (numeric_marker_exclusion (U := ascii_only) 24 612
              (example_block "2024 Annual Review" 24 false 60 1)
              (lit "2024") [] 32 (lit "Annual Review"))
    as [Hc Hskip]; [done|vm_compute; repeat constructor|by left|reflexivity|reflexivity|].
  split; [exact Hc|].
  etrans; [exact (Hskip [] [example_block "Annual Review" 23 false 90 1])|].
  vm_compute. reflexivity.
Defined.

Lemma title_fallback_or_long_witness :
  _extract_title example_doc [example_block "Introduction" 24 false 200 2]
  = Some (lit "Document Title").
Proof.
  apply (proj2 (title_fallback_or_long (U := ascii_only) example_doc
                  [example_block "Introduction" 24 false 200 2])).
  repeat constructor. discriminate.
Defined.

Lemma outline_entries_not_short_witness :
  (3 <= length (h_text (heading_of H1 (example_block "1 Introduction" 14 false 300 1))))%nat.
Proof.
  apply (outline_entries_not_short (U := ascii_only) 10 scattered_blocks).
  vm_compute. right. left.
Defined.

Lemma output_filename_plain_pdf_witness :
  output_filename (lit "report" ++ lit ".pdf") = Some (lit "report" ++ lit ".json").
Proof.
  apply (output_filename_plain_pdf (U := ascii_only)).
  repeat (constructor; [split; [reflexivity|discriminate]|]). constructor.
Defined.

Lemma no_numbering_prefix_no_level_pattern_witness :
  re_match re_three_groups (lit "Chapter one") = false
  /\ re_match re_two_groups (lit "Chapter one") = false
  /\ re_match re_one_group (lit "Chapter one") = false.
Proof.
  apply (no_numbering_prefix_no_level_pattern (U := ascii_only)). reflexivity.
Defined.

(** ** The blocks of a page *)

Section Blocks.
Context {U : UnicodeDB}.

Lemma rstrip_last s d : last s = Some d -> isspace d = false -> rstrip s = s.
Proof.
  intros Hl Hd. apply last_Some in Hl as [s' ->]. unfold rstrip.
  rewrite rev_app_distr. simpl. rewrite Hd. simpl.
  by rewrite rev_involutive.
Qed.

Lemma strip_tight s : tight s -> strip s = s.
Proof.
  intros [(c & Hc & Hsc) (d & Hd & Hsd)]. unfold strip.
  destruct s as [|a s]; [done|]. simpl in Hc. injection Hc as <-.
  simpl. rewrite Hsc. by eapply rstrip_last.
Qed.

Lemma strip_nil_or_tight t : strip t = [] \/ tight (strip t).
Proof.
  unfold strip, rstrip. destruct (lstrip t) as [|c s] eqn:Hl; [by left|].
  right. apply lstrip_head in Hl. simpl. rewrite lstrip_snoc by done.
  rewrite rev_app_distr. simpl. split; [by exists c|].
  destruct (lstrip (rev s)) as [|d r] eqn:Hr.
  - by exists c.
  - apply lstrip_head in Hr. exists d. split; [|done].
    simpl. rewrite app_comm_cons. by rewrite last_snoc.
Qed.

Lemma tight_app s1 s2 s3 : tight s1 -> tight s3 -> tight (s1 ++ s2 ++ s3).
Proof.
  intros [(c & Hc & Hsc) _] [(c' & Hc' & _) (d & Hd & Hsd)]. split.
  - exists c. split; [|done]. destruct s1; [done|]. exact Hc.
  - exists d. split; [|done]. apply last_Some in Hd as [s' ->].
    by rewrite !app_assoc, last_snoc.
Qed.

Lemma join_tight ts :
  ts <> [] -> Forall tight ts -> tight (join (lit " ") ts).
Proof.
  induction ts as [|t ts IH]; [done|]. intros _ Hts.
  apply Forall_cons in Hts as [Ht Hts]. destruct ts as [|t' ts]; [done|].
  change (join (lit " ") (t :: t' :: ts))
    with (t ++ lit " " ++ join (lit " ") (t' :: ts)).
  apply tight_app; [done|]. by apply IH.
Qed.

Lemma concat_join ts :
  ts <> [] ->
  concat ((fun t => t ++ lit " ") <$> ts) = join (lit " ") ts ++ lit " ".
Proof.
  induction ts as [|t ts IH]; [done|]. intros _. destruct ts as [|t' ts].
  - simpl. by rewrite app_nil_r.
  - rewrite fmap_cons. cbn [concat]. rewrite IH by done.
    change (join (lit " ") (t :: t' :: ts))
      with (t ++ lit " " ++ join (lit " ") (t' :: ts)).
    by rewrite <- !app_assoc.
Qed.

Lemma strip_tight_space s : tight s -> strip (s ++ lit " ") = s.
Proof.
  intros [(c & Hc & Hsc) (d & Hd & Hsd)]. unfold strip.
  destruct s as [|a s]; [done|]. simpl in Hc. injection Hc as <-.
  rewrite <- app_comm_cons. cbn [lstrip]. rewrite Hsc.
  unfold rstrip. rewrite app_comm_cons, rev_app_distr.
  change (rev (lit " ")) with [32]. cbn [app lstrip].
  change (isspace 32) with true. cbn iota.
  fold (rstrip (a :: s)). by eapply rstrip_last.
Qed.

Lemma usable_tight sp : usable sp -> tight (strip (span_text sp)).
Proof.
  unfold usable. intros Hu. destruct (strip_nil_or_tight (span_text sp)) as [H|H]; [|done].
  rewrite H in Hu. simpl in Hu. lia.
Qed.

Lemma tight_length s : tight s -> (1 <= length s)%nat.
Proof. intros [(c & Hc & _) _]. destruct s; [done|]. simpl. lia. Qed.

(** The text of the block of a line. *)
Lemma block_of_line_text page ln b :
  b ∈ block_of_line page ln ->
  filter usable (spans ln) <> []
  /\ text b = join (lit " ")
                ((fun sp => strip (span_text sp)) <$> filter usable (spans ln))
  /\ page_num b = (number page + 1)%Z.
Proof.
  unfold block_of_line. rewrite collect_line_spec.
  destruct (filter usable (spans ln)) as [|sp sps] eqn:Hf.
  { simpl. by intros ?%elem_of_nil. }
  assert (Forall usable (sp :: sps)) as Hus.
  { rewrite <- Hf. apply Forall_forall. by intros x [? _]%list_elem_of_filter. }
  assert (Forall tight ((fun sp => strip (span_text sp)) <$> sp :: sps)) as Hts.
  { apply Forall_fmap. eapply Forall_impl; [exact Hus|]. intros x. apply usable_tight. }
  assert (concat ((fun sp => strip (span_text sp) ++ lit " ") <$> sp :: sps)
          = join (lit " ") ((fun sp => strip (span_text sp)) <$> sp :: sps) ++ lit " ")
    as Hc.
  { rewrite <- concat_join by done. f_equal. by rewrite <- list_fmap_compose. }
  rewrite Hc.
  assert (tight (join (lit " ") ((fun sp => strip (span_text sp)) <$> sp :: sps)))
    as Hj by (by apply join_tight).
  destruct (join (lit " ") ((fun sp => strip (span_text sp)) <$> sp :: sps) ++ lit " ")
    as [|c r] eqn:Hjr.
  { apply tight_length in Hj. apply (f_equal length) in Hjr.
    rewrite length_app in Hjr. simpl in Hjr. lia. }
  cbn [head]. destruct (span_bbox sp) as [[[b0 b1] b2] b3].
  intros ->%list_elem_of_singleton. cbn [text page_num].
  split; [done|]. split; [|done]. rewrite <- Hjr. by apply strip_tight_space.
Qed.

(** X8.  The text of a block is the trimmed texts of the usable spans of
    its line (those of two characters or more after trimming), in order,
    with one space between two of them. *)
Theorem block_text_single_spaced (page : Page) (ln : Line) (b : TextBlock) :
  b ∈ block_of_line page ln ->
  text b = join (lit " ")
             ((fun sp => strip (span_text sp)) <$> filter usable (spans ln)).
Proof. intros Hb. by apply block_of_line_text in Hb as (_ & ? & _). Qed.

Lemma elem_of_extract_text_blocks page b :
  b ∈ _extract_text_blocks page ->
  exists ln, b ∈ block_of_line page ln.
Proof.
  unfold _extract_text_blocks. intros Hb.
  apply list_elem_of_In, in_flat_map in Hb as (rb & _ & Hb).
  destruct (lines rb) as [lns|]; [|done].
  apply in_flat_map in Hb as (ln & _ & Hb). exists ln. by apply list_elem_of_In.
Qed.

(** X9.  Every block of a document has a text of two characters or more
    that is trimmed already, and the number of one of the pages plus one:
    trimming the text of a block again, as the classification and the title
    selector do, changes nothing. *)
Theorem blocks_trimmed (doc : Document) (b : TextBlock) :
  b ∈ _extract_all_blocks doc ->
  (2 <= length (text b))%nat
  /\ strip (text b) = text b
  /\ exists page, page ∈ doc /\ page_num b = (number page + 1)%Z.
Proof.
  unfold _extract_all_blocks. intros Hb.
  apply list_elem_of_In, in_flat_map in Hb as (page & Hp & Hb).
  apply list_elem_of_In in Hp, Hb.
  apply elem_of_extract_text_blocks in Hb as (ln & Hb).
  apply block_of_line_text in Hb as (Hne & Ht & Hn).
  destruct (filter usable (spans ln)) as [|sp sps] eqn:Hf; [done|].
  assert (Forall usable (sp :: sps)) as Hus.
  { rewrite <- Hf. apply Forall_forall. by intros x [? _]%list_elem_of_filter. }
  assert (Forall tight ((fun sp => strip (span_text sp)) <$> sp :: sps)) as Hts.
  { apply Forall_fmap. eapply Forall_impl; [exact Hus|]. intros x. apply usable_tight. }
  split_and!.
  - rewrite Ht. apply Forall_cons in Hus as [Hu _]. unfold usable in Hu.
    rewrite fmap_cons. destruct (_ <$> sps) as [|t ts].
    + exact Hu.
    + change (join (lit " ") (strip (span_text sp) :: t :: ts))
        with (strip (span_text sp) ++ lit " " ++ join (lit " ") (t :: ts)).
      rewrite length_app. lia.
  - rewrite Ht. apply strip_tight. by apply join_tight.
  - by exists page.
Qed.

Lemma filter_all {A} (P : A -> Prop) `{!forall x, Decision (P x)} (l : list A) :
  Forall P l -> filter P l = l.
Proof.
  induction 1 as [|x l Hx _ IH]; [done|]. rewrite filter_cons.
  destruct (decide (P x)); [by rewrite IH|done].
Qed.

Lemma filter_none {A} (P : A -> Prop) `{!forall x, Decision (P x)} (l : list A) :
  Forall (fun x => ~ P x) l -> filter P l = [].
Proof.
  induction 1 as [|x l Hx _ IH]; [done|]. rewrite filter_cons.
  destruct (decide (P x)); done.
Qed.

Lemma extract_text_blocks_page_num page b :
  b ∈ _extract_text_blocks page -> page_num b = (number page + 1)%Z.
Proof.
  intros (ln & Hb)%elem_of_extract_text_blocks.
  by apply block_of_line_text in Hb as (_ & _ & ?).
Qed.

(** X10.  In a document whose pages carry their indices, the blocks of
    page 1 are the blocks of the first page, in their order, and the title
    is the one of the document cut down to its first page: no later page
    has a part in it. *)
Theorem title_from_first_page (page0 : Page) (pages : list Page) :
  pages_numbered (page0 :: pages) ->
  filter (fun b => page_num b = 1%Z) (_extract_all_blocks (page0 :: pages))
    = _extract_text_blocks page0
  /\ _extract_title (page0 :: pages) (_extract_all_blocks (page0 :: pages))
     = _extract_title [page0] (_extract_all_blocks [page0]).
Proof.
  intros Hnum.
  assert (filter (fun b => page_num b = 1%Z) (_extract_text_blocks page0)
          = _extract_text_blocks page0) as H0.
  { apply filter_all, Forall_forall. intros b Hb%extract_text_blocks_page_num.
    rewrite Hb, (Hnum 0%nat page0 eq_refl). done. }
  assert (filter (fun b => page_num b = 1%Z) (_extract_all_blocks pages) = []) as H1.
  { apply filter_none, Forall_forall. intros b Hb.
    apply list_elem_of_In, in_flat_map in Hb as (page & Hp & Hb).
    apply list_elem_of_In in Hp, Hb. apply extract_text_blocks_page_num in Hb.
    apply list_elem_of_lookup_1 in Hp as [i Hi].
    rewrite Hb, (Hnum (S i) page Hi). lia. }
  assert (filter (fun b => page_num b = 1%Z) (_extract_all_blocks (page0 :: pages))
          = _extract_text_blocks page0) as Hf.
  { unfold _extract_all_blocks. cbn [flat_map]. rewrite filter_app.
    fold (_extract_all_blocks pages). by rewrite H0, H1, app_nil_r. }
  split; [done|]. unfold _extract_title. rewrite Hf.
  unfold _extract_all_blocks. cbn [flat_map]. by rewrite app_nil_r, H0.
Qed.

End Blocks.

(** ** The depth of a numbering prefix *)

(** A text is cut in one way only into a run of characters of a class and a
    rest that starts outside the class. *)
Lemma run_split {A} (p : A -> bool) (xs : list A) a s ys b t :
  Forall (fun c => p c = true) xs -> Forall (fun c => p c = true) ys ->
  p a = false -> p b = false ->
  xs ++ a :: s = ys ++ b :: t -> xs = ys /\ a = b /\ s = t.
Proof.
  intros Hxs. revert ys. induction Hxs as [|x xs Hx Hxs IH]; intros ys Hys Ha Hb Heq.
  - destruct Hys as [|y ys Hy Hys]; simpl in Heq.
    + by injection Heq as -> ->.
    + injection Heq as -> _. congruence.
  - destruct Hys as [|y ys Hy Hys]; simpl in Heq.
    + injection Heq as -> _. congruence.
    + injection Heq as -> Heq. by destruct (IH ys Hys Ha Hb Heq) as (-> & -> & ->).
Qed.

(** Takes the match of a concatenation of classes apart. *)
Ltac split_matches :=
  repeat match goal with
  | H : matches (Cat _ _) _ _ |- _ =>
      apply matches_cat_inv in H as (? & ? & ?)
  | H : matches Bol _ _ |- _ => apply matches_bol_inv in H as ->
  | H : matches (Cls _) _ _ |- _ => apply matches_cls_rest in H as (? & ? & ?)
  | H : matches (Plus (Cls _)) _ _ |- _ =>
      apply matches_plus_cls_rest in H as (? & ? & ? & ? & ?)
  | H : chr _ _ = true |- _ => apply chr_true in H as ->
  end;
  repeat match goal with
  | H : m_rest (MState _ ?t _) = _ |- _ => cbn [m_rest] in H
  | H : m_rest ?st = _ |- _ => rewrite H in *; clear H
  end.

Section NumberingDepth.
Context {U : UnicodeDB}.

Lemma digits_split xs a s ys b t :
  Forall (fun c => isdigit c = true) xs -> Forall (fun c => isdigit c = true) ys ->
  isdigit a = false -> isdigit b = false ->
  xs ++ a :: s = ys ++ b :: t -> xs = ys /\ a = b /\ s = t.
Proof. apply run_split. Qed.

Lemma dot_not_digit : isdigit 46 = false.
Proof. reflexivity. Qed.

Lemma dot_not_space : isspace 46 = false.
Proof. reflexivity. Qed.

Lemma three_groups_inv t :
  re_match re_three_groups t = true ->
  exists a b c w r,
    t = a ++ 46 :: b ++ 46 :: c ++ w :: r
    /\ Forall (fun c => isdigit c = true) a /\ Forall (fun c => isdigit c = true) b
    /\ Forall (fun c => isdigit c = true) c /\ isspace w = true.
Proof.
  rewrite re_match_spec. unfold re_three_groups, cls_d, cls_dot, cls_s.
  intros [st' Hm]. split_matches.
  match goal with
  | H : t = (?c1 :: ?x1) ++ _ :: (?c2 :: ?x2) ++ _ :: (?c3 :: ?x3) ++ (?w :: ?ws) ++ ?r |- _ =>
      exists (c1 :: x1), (c2 :: x2), (c3 :: x3), w, (ws ++ r)
  end.
  split_and!; by try constructor.
Qed.

Lemma two_groups_inv t :
  re_match re_two_groups t = true ->
  exists a b w r,
    t = a ++ 46 :: b ++ w :: r
    /\ Forall (fun c => isdigit c = true) a /\ Forall (fun c => isdigit c = true) b
    /\ isspace w = true.
Proof.
  rewrite re_match_spec. unfold re_two_groups, cls_d, cls_dot, cls_s.
  intros [st' Hm]. split_matches.
  match goal with
  | H : t = (?c1 :: ?x1) ++ _ :: (?c2 :: ?x2) ++ (?w :: ?ws) ++ ?r |- _ =>
      exists (c1 :: x1), (c2 :: x2), w, (ws ++ r)
  end.
  split_and!; by try constructor.
Qed.

Lemma one_group_inv t :
  re_match re_one_group t = true ->
  exists a w r,
    t = a ++ w :: r /\ Forall (fun c => isdigit c = true) a /\ isspace w = true.
Proof.
  rewrite re_match_spec. unfold re_one_group, cls_d, cls_s.
  intros [st' Hm]. split_matches.
  match goal with
  | H : t = (?c1 :: ?x1) ++ (?w :: ?ws) ++ ?r |- _ =>
      exists (c1 :: x1), w, (ws ++ r)
  end.
  split_and!; by try constructor.
Qed.

(** The converse: texts of these shapes are matched. *)
Lemma level_pattern_matches ds gs w rest :
  digits ds -> Forall digits gs -> isspace w = true ->
  match gs with
  | [] => re_match re_one_group (numbered_text ds gs w rest) = true
  | [_] => re_match re_two_groups (numbered_text ds gs w rest) = true
  | [_; _] => re_match re_three_groups (numbered_text ds gs w rest) = true
  | _ => True
  end.
Proof.
  intros [Hne Hds] Hgs Hw. unfold numbered_text.
  set (st0 := MState None (ds ++ concat ((fun g => 46 :: g) <$> gs) ++ w :: rest) []).
  assert (matches (Plus cls_d) st0 (consume ds st0)) as Hd
    by (by eapply matches_plus_cls).
  assert (m_rest (consume ds st0) = concat ((fun g => 46 :: g) <$> gs) ++ w :: rest)
    as Hr0 by (by apply consume_rest).
  destruct gs as [|g1 [|g2 [|g3 gs]]]; [| | |done]; apply re_match_spec.
  - exists (consume [w] (consume ds st0)). unfold re_one_group.
    eapply M_Cat; [by apply M_Bol|]. eapply M_Cat; [exact Hd|].
    eapply (matches_plus_cls isspace [w]); [done|by constructor|exact Hr0].
  - apply Forall_cons in Hgs as [[Hn1 Hg1] _].
    assert (m_rest (consume ds st0) = 46 :: g1 ++ w :: rest) as Hr1.
    { rewrite Hr0. cbn [fmap list_fmap concat]. by rewrite app_nil_r. }
    clear Hr0.
    set (st1 := MState (Some 46) (g1 ++ w :: rest) (m_grps (consume ds st0))).
    exists (consume [w] (consume g1 st1)). unfold re_two_groups.
    eapply M_Cat; [by apply M_Bol|]. eapply M_Cat; [exact Hd|].
    eapply M_Cat; [eapply M_Cls; [exact Hr1|done]|].
    eapply M_Cat; [by eapply (matches_plus_cls isdigit g1)|].
    eapply (matches_plus_cls isspace [w]); [done|by constructor|].
    by eapply consume_rest.
  - apply Forall_cons in Hgs as [[Hn1 Hg1] [[Hn2 Hg2] _]%Forall_cons].
    assert (m_rest (consume ds st0) = 46 :: g1 ++ 46 :: g2 ++ w :: rest) as Hr1.
    { rewrite Hr0. cbn [fmap list_fmap concat].
      by rewrite app_nil_r, <- !app_comm_cons, <- !app_assoc. }
    clear Hr0.
    set (st1 := MState (Some 46) (g1 ++ 46 :: g2 ++ w :: rest) (m_grps (consume ds st0))).
    set (st2 := MState (Some 46) (g2 ++ w :: rest) (m_grps (consume g1 st1))).
    exists (consume [w] (consume g2 st2)). unfold re_three_groups.
    eapply M_Cat; [by apply M_Bol|]. eapply M_Cat; [exact Hd|].
    eapply M_Cat; [eapply M_Cls; [exact Hr1|done]|].
    eapply M_Cat; [by eapply (matches_plus_cls isdigit g1)|].
    eapply M_Cat; [eapply M_Cls; [by eapply consume_rest|done]|].
    eapply M_Cat; [by eapply (matches_plus_cls isdigit g2)|].
    eapply (matches_plus_cls isspace [w]); [done|by constructor|].
    by eapply consume_rest.
Qed.

Lemma numbered_text_cons ds g gs w rest :
  numbered_text ds (g :: gs) w rest = ds ++ 46 :: numbered_text g gs w rest.
Proof.
  unfold numbered_text. rewrite fmap_cons. cbn [concat].
  f_equal. by rewrite <- app_assoc.
Qed.

(** Where the digits of a numbered text are followed by whitespace, the
    numbering ends. *)
Lemma numbering_ends ds gs w rest a w' r :
  (forall c, isspace c = true -> isdigit c = false) ->
  Forall (fun c => isdigit c = true) ds -> Forall (fun c => isdigit c = true) a ->
  isspace w' = true ->
  numbered_text ds gs w rest = a ++ w' :: r -> gs = [].
Proof.
  intros Hsd Hds Ha Hw' Heq. destruct gs as [|g gs]; [done|].
  rewrite numbered_text_cons in Heq.
  apply digits_split in Heq as (_ & <- & _); [|done|done|apply dot_not_digit|by apply Hsd].
  discriminate Hw'.
Qed.

(** Where they are followed by a dot, a further group follows. *)
Lemma numbering_continues ds gs w rest a s :
  (forall c, isspace c = true -> isdigit c = false) ->
  Forall (fun c => isdigit c = true) ds -> Forall (fun c => isdigit c = true) a ->
  isspace w = true ->
  numbered_text ds gs w rest = a ++ 46 :: s ->
  exists g gs', gs = g :: gs' /\ s = numbered_text g gs' w rest.
Proof.
  intros Hsd Hds Ha Hw Heq. destruct gs as [|g gs].
  - unfold numbered_text in Heq. cbn [fmap list_fmap concat app] in Heq.
    apply digits_split in Heq as (_ & -> & _); [|done|done|by apply Hsd|apply dot_not_digit].
    discriminate Hw.
  - rewrite numbered_text_cons in Heq.
    apply digits_split in Heq as (_ & _ & <-);
      [|done|done|apply dot_not_digit|apply dot_not_digit].
    by exists g, gs.
Qed.

Lemma level_pattern_depth ds gs w rest :
  (forall c, isspace c = true -> isdigit c = false) ->
  digits ds -> Forall digits gs -> isspace w = true ->
  (re_match re_one_group (numbered_text ds gs w rest) = true -> length gs = 0%nat)
  /\ (re_match re_two_groups (numbered_text ds gs w rest) = true -> length gs = 1%nat)
  /\ (re_match re_three_groups (numbered_text ds gs w rest) = true -> length gs = 2%nat).
Proof.
  intros Hsd [_ Hds] Hgs Hw. split_and!.
  - intros (a & w' & r & Heq & Ha & Hw')%one_group_inv.
    by rewrite (numbering_ends _ _ _ _ _ _ _ Hsd Hds Ha Hw' Heq).
  - intros (a & b & w' & r & Heq & Ha & Hb & Hw')%two_groups_inv.
    apply numbering_continues in Heq as (g1 & gs1 & -> & Heq); [|done..].
    apply Forall_cons in Hgs as [[_ Hg1] _]. symmetry in Heq.
    by rewrite (numbering_ends _ _ _ _ _ _ _ Hsd Hg1 Hb Hw' Heq).
  - intros (a & b & c & w' & r & Heq & Ha & Hb & Hc & Hw')%three_groups_inv.
    apply numbering_continues in Heq as (g1 & gs1 & -> & Heq); [|done..].
    apply Forall_cons in Hgs as [[_ Hg1] Hgs]. symmetry in Heq.
    apply numbering_continues in Heq as (g2 & gs2 & -> & Heq); [|done..].
    apply Forall_cons in Hgs as [[_ Hg2] _]. symmetry in Heq.
    by rewrite (numbering_ends _ _ _ _ _ _ _ Hsd Hg2 Hc Hw' Heq).
Qed.

(** X11.  The depth of the numbering prefix decides the level: a number
    gives H1, two numbers H2, three numbers H3, whatever the size; and a
    prefix of four numbers or more is matched by none of the patterns of the
    level assigner, so that the size ratio and the bold bit decide, and the
    block has no level when it is set in the body font and not bold.  Such a
    block is a heading whenever its text is not shorter than the minimum. *)
Theorem numbering_depth_decides_level (self : PDFOutlineExtractor) (b : TextBlock)
    (ds : pystr) (gs : list pystr) (w : N) (rest : pystr) :
  (forall c, isspace c = true -> isdigit c = false) ->
  digits ds -> Forall digits gs -> isspace w = true ->
  strip (text b) = numbered_text ds gs w rest ->
  _is_heading self b = negb (length (strip (text b)) <? min_block_length self)%nat
  /\ _get_level self b =
     match gs with
     | [] => Some H1
     | [_] => Some H2
     | [_; _] => Some H3
     | _ =>
         if F.ge (size_ratio self b) (th_H1 (font_thresholds self)) then Some H1
         else if F.ge (size_ratio self b) (th_H2 (font_thresholds self)) then Some H2
         else if F.ge (size_ratio self b) (th_H3 (font_thresholds self)) || bold b
         then Some H3 else None
     end.
Proof.
  intros Hsd Hds Hgs Hw Ht.
  destruct (level_pattern_depth ds gs w rest Hsd Hds Hgs Hw) as (D1 & D2 & D3).
  pose proof (level_pattern_matches ds gs w rest Hds Hgs Hw) as Hm.
  split.
  - unfold _is_heading. rewrite Ht.
    destruct (length _ <? min_block_length self)%nat; [done|].
    destruct (bold b || _); [done|]. unfold numbered_text.
    destruct Hds as [Hne Hds].
    rewrite numbered_matches; [done|done|done| |done].
    eapply Forall_impl; [exact Hgs|]. by intros g [? ?].
  - unfold _get_level. rewrite Ht.
    destruct (re_match re_three_groups _) eqn:E3.
    { specialize (D3 eq_refl). by destruct gs as [|? [|? [|? ?]]]. }
    destruct (re_match re_two_groups _) eqn:E2.
    { specialize (D2 eq_refl). destruct gs as [|? [|? ?]]; [done|done|].
      simpl in D2. lia. }
    destruct (re_match re_one_group _) eqn:E1.
    { specialize (D1 eq_refl). by destruct gs. }
    destruct gs as [|? [|? [|? ?]]]; congruence.
Qed.

End NumberingDepth.

(** ** What the normalization of a title leaves *)

Section NormalizedTitles.
Context {U : UnicodeDB}.

Lemma strip_prefix_Some p s s' : strip_prefix p s = Some s' -> s = p ++ s'.
Proof.
  revert s. induction p as [|a p IH]; intros s; simpl.
  - by intros [= ->].
  - destruct s as [|b s]; [done|]. destruct (a =? b) eqn:E; [|done].
    apply N.eqb_eq in E as ->. intros H. by rewrite (IH _ H).
Qed.

(** A match ends at a later position of the subject than it starts. *)
Lemma matches_rest_suffix r st st' :
  matches r st st' -> exists xs, m_rest st = xs ++ m_rest st'.
Proof.
  induction 1 as [st|st|p st c s' Hr Hc|r1 r2 st st1 st2 _ IH1 _ IH2|r st st' _ IH|r st
                  |r st|r st st1 st2 _ IH1 _ _ IH2|r st st1 st2 _ IH1 _ IH2
                  |n r st st' _ IH|n st w s' Hg Hp].
  - by exists [].
  - by exists [].
  - exists [c]. by rewrite Hr.
  - destruct IH1 as [xs ->], IH2 as [ys ->]. exists (xs ++ ys). by rewrite app_assoc.
  - done.
  - by exists [].
  - by exists [].
  - destruct IH1 as [xs ->], IH2 as [ys ->]. exists (xs ++ ys). by rewrite app_assoc.
  - destruct IH1 as [xs ->], IH2 as [ys ->]. exists (xs ++ ys). by rewrite app_assoc.
  - done.
  - exists w. by apply strip_prefix_Some.
Qed.

(** The starred class of whitespace takes all the whitespace there is. *)
Lemma spaces_star_greedy n st :
  (length (m_rest st) <= n)%nat ->
  exists st', star_loop (mtch cls_s) n st Some = Some st'
              /\ m_rest st' = lstrip (m_rest st).
Proof.
  revert st. induction n as [|n IH]; intros [p r g] Hn; cbn [m_rest] in *.
  - destruct r; [|simpl in Hn; lia]. by eexists.
  - cbn [star_loop mtch cls_s m_rest m_grps]. destruct r as [|c r]; [by eexists|].
    cbn [lstrip]. destruct (isspace c); [|by eexists].
    replace (length r <? length (c :: r))%nat with true
      by (symmetry; apply Nat.ltb_lt; simpl; lia).
    destruct (IH (MState (Some c) r g)) as (st' & Hst & Hr); [simpl in *; lia|].
    exists st'. split; [|done]. unfold cls_s in Hst. cbn [mtch] in Hst.
    by rewrite Hst.
Qed.

Lemma match_spaces_run prev c c2 s :
  isspace c = true -> isspace c2 = true ->
  exists st', match_at re_spaces prev (c :: c2 :: s) = Some st'
              /\ m_rest st' = lstrip s.
Proof.
  intros Hc Hc2. unfold match_at, re_spaces.
  cbn [mtch cls_s m_rest m_grps]. rewrite Hc, Hc2.
  apply (spaces_star_greedy (length s) (MState (Some c2) s [])). done.
Qed.

Lemma match_spaces_single prev c s :
  (forall c2 s', s = c2 :: s' -> isspace c2 = false) ->
  match_at re_spaces prev (c :: s) = None.
Proof.
  intros Hs. unfold match_at, re_spaces. cbn [mtch cls_s m_rest m_grps].
  destruct (isspace c); [|done]. destruct s as [|c2 s']; [done|].
  by rewrite (Hs c2 s' eq_refl).
Qed.

Lemma sub_spaces_prev t prev prev' n s :
  sub_from re_spaces t prev n s = sub_from re_spaces t prev' n s.
Proof.
  destruct s as [|c s]; [done|]. cbn [sub_from]. destruct n; [|done].
  assert (match_at re_spaces prev (c :: s) = match_at re_spaces prev' (c :: s)) as ->;
    [|done].
  unfold match_at, re_spaces. by cbn [mtch cls_s m_rest m_grps].
Qed.

(** The characters of a match are passed over. *)
Lemma sub_from_skip r t prev n s :
  (n <= length s)%nat ->
  exists prev', sub_from r t prev n s = sub_from r t prev' 0 (drop n s).
Proof.
  revert prev s. induction n as [|n IH]; intros prev s Hn; [by exists prev|].
  destruct s as [|c s]; [simpl in Hn; lia|]. cbn [sub_from drop].
  apply IH. simpl in Hn. lia.
Qed.

Lemma lstrip_drop s : lstrip s = drop (length s - length (lstrip s)) s.
Proof.
  induction s as [|c s IH]; [done|]. cbn [lstrip]. destruct (isspace c).
  - assert (length (lstrip s) <= length s)%nat.
    { rewrite IH at 1. rewrite length_drop. lia. }
    replace (length (c :: s) - length (lstrip s))%nat
      with (S (length s - length (lstrip s))) by (simpl; lia).
    exact IH.
  - by rewrite Nat.sub_diag.
Qed.

Lemma sub_spaces_run prev c c2 s :
  isspace c = true -> isspace c2 = true ->
  sub_from re_spaces [RChr 32] prev 0 (c :: c2 :: s) =
  32 :: sub_from re_spaces [RChr 32] None 0 (lstrip s).
Proof.
  intros Hc Hc2. cbn [sub_from].
  destruct (match_spaces_run prev c c2 s Hc Hc2) as (st' & -> & Hr). rewrite Hr.
  assert (length (lstrip s) <= length s)%nat as Hle.
  { rewrite lstrip_drop at 1. rewrite length_drop. lia. }
  replace (length (c :: c2 :: s) - length (lstrip s))%nat
    with (S (S (length s - length (lstrip s)))) by (simpl; lia).
  cbn [expand flat_map app].
  destruct (sub_from_skip re_spaces [RChr 32] (Some c2) (length s - length (lstrip s)) s)
    as [prev' ->]; [lia|].
  rewrite <- lstrip_drop. f_equal. apply sub_spaces_prev.
Qed.

Lemma sub_spaces_single prev c s :
  (forall c2 s', s = c2 :: s' -> isspace c2 = false) ->
  sub_from re_spaces [RChr 32] prev 0 (c :: s) =
  c :: sub_from re_spaces [RChr 32] None 0 s.
Proof.
  intros Hs. cbn [sub_from]. rewrite match_spaces_single by done.
  f_equal. apply sub_spaces_prev.
Qed.

Lemma single_spaced_cons a b s :
  single_spaced (a :: b :: s) = negb (isspace a && isspace b) && single_spaced (b :: s).
Proof. done. Qed.

(** The second substitution leaves no two whitespace characters next to
    each other, and whitespace at the head only where there was some. *)
Lemma sub_spaces_single_spaced n s :
  (length s <= n)%nat ->
  single_spaced (sub_from re_spaces [RChr 32] None 0 s) = true
  /\ ((forall c s', s = c :: s' -> isspace c = false) ->
      forall c o, sub_from re_spaces [RChr 32] None 0 s = c :: o -> isspace c = false).
Proof.
  revert s. induction n as [|n IH]; intros s Hn.
  { destruct s; [|simpl in Hn; lia]. split; [done|]. by intros _ c o. }
  destruct s as [|c s]; [split; [done|]; by intros _ c o|].
  destruct (isspace c) eqn:Hc.
  - destruct s as [|c2 s].
    { rewrite sub_spaces_single by done. split; [done|].
      intros H. by rewrite (H c [] eq_refl) in Hc. }
    destruct (isspace c2) eqn:Hc2.
    + rewrite sub_spaces_run by done.
      assert (length (lstrip s) <= length s)%nat as Hle.
      { rewrite lstrip_drop at 1. rewrite length_drop. lia. }
      destruct (IH (lstrip s)) as [Hs Hh]; [simpl in Hn; lia|].
      split; [|intros H; by rewrite (H c _ eq_refl) in Hc].
      destruct (sub_from _ _ _ _ (lstrip s)) as [|a o] eqn:Ho; [done|].
      rewrite single_spaced_cons, Hs.
      rewrite (Hh (fun c0 s0 => lstrip_head s c0 s0) a o eq_refl).
      by rewrite andb_false_r.
    + rewrite sub_spaces_single by (by intros ? ? [= <- _]).
      destruct (IH (c2 :: s)) as [Hs Hh]; [simpl in Hn |- *; lia|].
      split; [|intros H; by rewrite (H c _ eq_refl) in Hc].
      destruct (sub_from _ _ _ _ (c2 :: s)) as [|a o] eqn:Ho; [done|].
      rewrite single_spaced_cons, Hs.
      rewrite (Hh ltac:(by intros ? ? [= <- _]) a o eq_refl).
      by rewrite andb_false_r.
  - rewrite sub_spaces_nonspace by done.
    rewrite (sub_spaces_prev _ (Some c) None).
    destruct (IH s) as [Hs Hh]; [simpl in Hn; lia|].
    split; [|by intros _ ? ? [= <- _]].
    destruct (sub_from _ _ _ _ s) as [|a o] eqn:Ho; [done|].
    by rewrite single_spaced_cons, Hs, Hc.
Qed.

(** A substitution whose replacements are no longer than what they replace
    does not lengthen the subject. *)
Lemma sub_from_length r t :
  (forall prev s st', match_at r prev s = Some st' ->
     (length (expand t st') <= length s - length (m_rest st'))%nat) ->
  forall s prev k, (length (sub_from r t prev k s) <= length s - k)%nat.
Proof.
  intros Hexp. induction s as [|c s IH]; intros prev k; [simpl; lia|].
  cbn [sub_from]. destruct k as [|k].
  - destruct (match_at r prev (c :: s)) as [st'|] eqn:Hm.
    + specialize (Hexp _ _ _ Hm).
      destruct (length (c :: s) - length (m_rest st'))%nat as [|n] eqn:Hn.
      * specialize (IH (Some c) 0%nat). simpl in *. lia.
      * specialize (IH (Some c) n). rewrite length_app. simpl in *. lia.
    + specialize (IH (Some c) 0%nat). simpl in *. lia.
  - specialize (IH (Some c) k). simpl. lia.
Qed.

Lemma spaces_match_length prev s st' :
  match_at re_spaces prev s = Some st' ->
  (length (expand [RChr 32] st') <= length s - length (m_rest st'))%nat.
Proof.
  intros Hm%match_at_sound. unfold re_spaces, cls_s in Hm. split_matches.
  match goal with H : s = _ |- _ => rewrite H end.
  simpl. rewrite !length_app. simpl. lia.
Qed.

Lemma repeated_word_match_length prev s st' :
  match_at re_repeated_word prev s = Some st' ->
  (length (expand [RGrp 1] st') <= length s - length (m_rest st'))%nat.
Proof.
  intros Hm%match_at_sound. unfold re_repeated_word in Hm.
  apply matches_cat_inv in Hm as (st1 & Hb & Hm).
  inversion Hb as [|? Hwb| | | | | | | | |]; subst.
  apply matches_cat_inv in Hm as (stA & Hg & Hm).
  inversion Hg as [| | | | | | | | |? ? ? stB HmB|]; subst.
  apply matches_plus_cls_inv in HmB as (c0 & w & Hc0 & Hw & Hrest & ->).
  cbn [m_rest] in Hrest.
  set (st0 := MState prev s []) in *.
  assert (m_rest st0 = (c0 :: w) ++ m_rest (consume (c0 :: w) st0)) as Hr0 by done.
  rewrite (consumed_consume _ _ _ Hr0) in Hm.
  pose proof (matches_rest_suffix _ _ _ Hm) as [xs Hxs].
  cbn [set_grp m_rest] in Hxs.
  assert (length s = length (c0 :: w) + length xs + length (m_rest st'))%nat as Hlen.
  { rewrite Hrest at 1. rewrite Hxs, !length_app. lia. }
  clear Hrest Hr0 Hxs.
  inversion Hm as [| | | | | | | |? ? stC ? HmC HmS| |]; subst.
  apply repetitions_keep_word in HmS.
  inversion HmC as [| | | | | | | | |? ? ? stD HmD|]; subst.
  pose proof (repetition_keeps_grps _ _ HmD) as Hgr.
  cbn [set_grp m_rest m_grps] in *.
  unfold expand. cbn [flat_map]. rewrite HmS. cbn [get_grp Nat.eqb]. rewrite Hgr.
  cbn [get_grp Nat.eqb default]. rewrite app_nil_r. unfold id. lia.
Qed.

(** X12.  A normalized title has no two whitespace characters next to
    each other, and it is not longer than the text it is made from. *)
Theorem normalized_title_single_spaced (t : pystr) :
  single_spaced (normalize_title t) = true
  /\ (length (normalize_title t) <= length t)%nat.
Proof.
  unfold normalize_title, re_sub. split.
  - by eapply sub_spaces_single_spaced.
  - pose proof (sub_from_length re_spaces [RChr 32] spaces_match_length
                  (sub_from re_repeated_word [RGrp 1] None 0 t) None 0%nat) as H1.
    pose proof (sub_from_length re_repeated_word [RGrp 1] repeated_word_match_length
                  t None 0%nat) as H2.
    lia.
Qed.

Lemma sub_spaces_id prev s :
  Forall (fun c => isspace c = false) s ->
  sub_from re_spaces [RChr 32] prev 0 s = s.
Proof.
  intros Hs. revert prev. induction Hs as [|c s Hc _ IH]; intros prev; [done|].
  by rewrite sub_spaces_nonspace, IH.
Qed.

Lemma space_not_word : isword 32 = false.
Proof. reflexivity. Qed.

(** The match of the pattern of a repeated word on a word written twice. *)
Lemma doubled_word_match prev c w st' :
  Forall (fun x => isword x = true) (c :: w) ->
  match_at re_repeated_word prev ((c :: w) ++ 32 :: c :: w) = Some st' ->
  get_grp 1 (m_grps st') = Some (c :: w) /\ m_rest st' = [].
Proof.
  intros Hcw Hm%match_at_sound. unfold re_repeated_word in Hm.
  apply matches_cat_inv in Hm as (st1 & Hb & Hm).
  inversion Hb as [|? Hwb| | | | | | | | |]; subst.
  apply matches_cat_inv in Hm as (stA & Hg & Hm).
  inversion Hg as [| | | | | | | | |? ? ? stB HmB|]; subst.
  apply matches_plus_cls_inv in HmB as (c0 & w0 & Hc0 & Hw0 & Hrest & ->).
  cbn [m_rest] in Hrest.
  set (st0 := MState prev ((c :: w) ++ 32 :: c :: w) []) in *.
  assert (m_rest st0 = (c0 :: w0) ++ m_rest (consume (c0 :: w0) st0)) as Hr0 by done.
  rewrite (consumed_consume _ _ _ Hr0) in Hm.
  inversion Hm as [| | | | | | | |? ? stC ? HmC HmS| |]; subst.
  pose proof (matches_rest_suffix _ _ _ HmS) as [xs Hxs].
  apply repetitions_keep_word in HmS.
  inversion HmC as [| | | | | | | | |? ? ? stD HmD|]; subst.
  pose proof (repetition_keeps_grps _ _ HmD) as Hgr.
  apply matches_cat_inv in HmD as (stE & HmE & (stF & HmF & HmG)%matches_cat_inv).
  inversion HmG; subst.
  inversion HmE as [| |? ? x s1 Hst Hx| | | | | | | |]; subst.
  apply chr_true in Hx as ->. cbn [set_grp m_rest m_grps] in *.
  rewrite Hst in Hrest.
  apply Forall_cons in Hcw as [Hc Hw].
  apply (run_split isword (c :: w) 32 (c :: w) (c0 :: w0) (N_of_ascii " ") s1) in Hrest
    as (Heq & _ & <-); [|by constructor|by constructor|apply space_not_word..].
  injection Heq as <- <-.
  inversion HmF as [| | | | | | | | | |? ? w1 s2 Hgg Hpp]; subst.
  cbn [m_grps m_rest get_grp Nat.eqb] in *. injection Hgg as <-.
  apply strip_prefix_Some in Hpp.
  assert (s2 = []) as -> by (apply (app_inv_head (c :: w)); by rewrite app_nil_r).
  symmetry in Hxs. apply app_eq_nil in Hxs as [_ Hxs].
  split; [|done]. by rewrite HmS.
Qed.

Lemma doubled_word_matches c w :
  Forall (fun x => isword x = true) (c :: w) ->
  is_Some (match_at re_repeated_word None ((c :: w) ++ 32 :: c :: w)).
Proof.
  intros Hcw. unfold match_at.
  set (st0 := MState None ((c :: w) ++ 32 :: c :: w) []).
  assert (m_rest st0 = (c :: w) ++ 32 :: c :: w) as Hr0 by done.
  assert (exists d, last (c :: w) = Some d /\ isword d = true) as (d & Hd & Hwd).
  { destruct (last (c :: w)) as [d|] eqn:Hl; [|by apply last_None in Hl].
    exists d. split; [done|]. apply last_Some in Hl as [l' Hl]. rewrite Hl in Hcw.
    by apply Forall_app in Hcw as [_ [? _]%Forall_cons]. }
  set (stA := set_grp 1 (consumed st0 (consume (c :: w) st0)) (consume (c :: w) st0)).
  set (stE := MState (Some 32) (c :: w) (m_grps stA)).
  set (stD := MState (match last (c :: w) with Some x => Some x | None => m_prev stE end)
                     [] (m_grps stE)).
  apply (mtch_complete _ _ (set_grp 2 (consumed stA stD) stD)); [|done].
  unfold re_repeated_word.
  eapply M_Cat.
  { apply M_Wordb. unfold is_wordb. cbn [st0 m_prev m_rest app].
    apply Forall_cons in Hcw as [-> _]. done. }
  eapply M_Cat.
  { apply M_Grp. by apply (matches_plus_cls isword (c :: w) (32 :: c :: w)). }
  fold stA. eapply M_Plus; [|apply M_Star_nil].
  apply M_Grp. eapply M_Cat.
  { apply (M_Cls (chr " ") stA 32 (c :: w)); [|reflexivity].
    unfold stA. cbn [set_grp m_rest]. by eapply consume_rest. }
  fold stE. eapply M_Cat.
  - eapply (M_Ref 1 stE (c :: w) []).
    + unfold stE, stA. cbn [m_grps set_grp get_grp Nat.eqb]. f_equal.
      by eapply consumed_consume.
    + cbn [stE m_rest]. rewrite <- (app_nil_r (c :: w)) at 2. apply strip_prefix_app.
  - fold stD. apply M_Wordb. unfold is_wordb, stD. cbn [m_prev m_rest].
    by rewrite Hd, Hwd.
Qed.

Lemma normalize_doubled_word w :
  w <> [] ->
  Forall (fun c => isword c = true /\ isspace c = false) w ->
  normalize_title (w ++ 32 :: w) = w.
Proof.
  intros Hne Hw. destruct w as [|c w]; [done|]. clear Hne.
  assert (Forall (fun x => isword x = true) (c :: w)) as Hcw
    by (eapply Forall_impl; [exact Hw|]; by intros x [? _]).
  assert (Forall (fun x => isspace x = false) (c :: w)) as Hsp
    by (eapply Forall_impl; [exact Hw|]; by intros x [_ ?]).
  unfold normalize_title, re_sub.
  assert (sub_from re_repeated_word [RGrp 1] None 0 ((c :: w) ++ 32 :: c :: w)
          = c :: w) as ->; [|by apply sub_spaces_id].
  rewrite <- app_comm_cons. cbn [sub_from]. rewrite app_comm_cons.
  destruct (doubled_word_matches c w Hcw) as [st' Hm]. rewrite Hm.
  apply doubled_word_match in Hm as [Hg Hr]; [|done]. rewrite Hr.
  rewrite <- app_comm_cons. cbn [length]. rewrite Nat.sub_0_r.
  unfold expand. cbn [flat_map]. rewrite Hg. cbn [default]. rewrite app_nil_r.
  destruct (sub_from_skip re_repeated_word [RGrp 1] (Some c)
              (length (w ++ 32 :: c :: w)) (w ++ 32 :: c :: w)) as [prev' ->]; [done|].
  rewrite drop_all. unfold id. by rewrite app_nil_r.
Qed.

(** X13.  A word written twice with a space between is normalized to the
    word; so a block with that text, once accepted, gives the word as the
    title when the word has more than five characters and the fallback
    otherwise. *)
Theorem doubled_word_title (b : TextBlock) (w : pystr) :
  w <> [] ->
  Forall (fun c => isword c = true /\ isspace c = false) w ->
  strip (text b) = w ++ 32 :: w ->
  normalize_title (strip (text b)) = w
  /\ accepted_title b = if (5 <? length w)%nat then w else default_title.
Proof.
  intros Hne Hw Ht.
  assert (normalize_title (strip (text b)) = w) as Hn
    by (rewrite Ht; by apply normalize_doubled_word).
  split; [done|]. unfold accepted_title. by rewrite Hn.
Qed.

(** A match of the pattern of a repeated word is on a word, a space and the
    word again. *)
Lemma repeated_word_match_shape prev c s st' :
  match_at re_repeated_word prev (c :: s) = Some st' ->
  exists w tail,
    Forall (fun x => isword x = true) (c :: w)
    /\ c :: s = (c :: w) ++ 32 :: (c :: w) ++ tail.
Proof.
  intros Hm%match_at_sound. unfold re_repeated_word in Hm.
  apply matches_cat_inv in Hm as (st1 & Hb & Hm).
  inversion Hb as [|? Hwb| | | | | | | | |]; subst.
  apply matches_cat_inv in Hm as (stA & Hg & Hm).
  inversion Hg as [| | | | | | | | |? ? ? stB HmB|]; subst.
  apply matches_plus_cls_inv in HmB as (c0 & w & Hc0 & Hw & Hrest & ->).
  cbn [m_rest] in Hrest. injection Hrest as <- Hs.
  set (st0 := MState prev (c :: s) []) in *.
  assert (m_rest st0 = (c :: w) ++ m_rest (consume (c :: w) st0)) as Hr0
    by (simpl; by rewrite Hs at 1).
  rewrite (consumed_consume _ _ _ Hr0) in Hm.
  inversion Hm as [| | | | | | | |? ? stC ? HmC HmS| |]; subst.
  inversion HmC as [| | | | | | | | |? ? ? stD HmD|]; subst.
  apply matches_cat_inv in HmD as (stE & HmE & (stF & HmF & HmG)%matches_cat_inv).
  inversion HmE as [| |? ? x s1 Hst Hx| | | | | | | |]; subst.
  apply chr_true in Hx as ->. cbn [set_grp m_rest m_grps] in *.
  inversion HmF as [| | | | | | | | | |? ? w1 s2 Hgg Hpp]; subst.
  cbn [m_grps m_rest get_grp Nat.eqb] in *. injection Hgg as <-.
  apply strip_prefix_Some in Hpp.
  exists w, s2. split; [by constructor|].
  change (m_rest st0 = (c :: w) ++ 32 :: (c :: w) ++ s2).
  by rewrite Hr0, Hst, Hpp.
Qed.

(** Where the pattern matches at no position, the substitution returns
    the subject. *)
Lemma sub_from_no_match r t s prev0 :
  (forall l1 c l2, s = l1 ++ c :: l2 ->
     match_at r (match last l1 with Some x => Some x | None => prev0 end) (c :: l2)
     = None) ->
  sub_from r t prev0 0 s = s.
Proof.
  revert prev0. induction s as [|c s IH]; intros prev0 H; [done|].
  cbn [sub_from]. pose proof (H [] c s eq_refl) as H0. cbn [last] in H0.
  rewrite H0. f_equal. apply IH.
  intros l1 c' l2 Heq. specialize (H (c :: l1) c' l2). rewrite Heq in H.
  specialize (H eq_refl). destruct l1 as [|a l1]; [exact H|].
  change (last (c :: a :: l1)) with (last (a :: l1)) in H.
  destruct (last (a :: l1)) eqn:Hl; [exact H|]. by apply last_None in Hl.
Qed.

Lemma double_spaced_lookup (w : pystr) n y :
  (w ++ 32 :: 32 :: w) !! n = Some y ->
  w !! n = Some y \/ (n = length w /\ y = 32) \/ (n = S (length w) /\ y = 32)
  \/ w !! (n - length w - 2)%nat = Some y.
Proof.
  intros [H|[Hn H]]%lookup_app_Some; [by left|]. right.
  destruct (n - length w)%nat as [|[|k]] eqn:Hk; simpl in H.
  - left. split; [lia|congruence].
  - right. left. split; [lia|congruence].
  - right. right. by replace (S (S k) - 2)%nat with k by lia.
Qed.

Lemma double_spaced_word w n y :
  Forall (fun x => isword x = true) w ->
  (w ++ 32 :: 32 :: w) !! n = Some y -> isword y = true ->
  n <> length w /\ n <> S (length w).
Proof.
  intros Hw Hn Hy.
  assert (y <> 32) as Hne by (intros ->; by rewrite space_not_word in Hy).
  apply lookup_app_Some in Hn as [Hn|[Hle Hn]].
  - apply lookup_lt_Some in Hn. lia.
  - destruct (n - length w)%nat as [|[|k]] eqn:Hk; simpl in Hn; [congruence..|lia].
Qed.

Lemma double_spaced_space w n :
  Forall (fun x => isword x = true) w ->
  (w ++ 32 :: 32 :: w) !! n = Some 32 -> n = length w \/ n = S (length w).
Proof.
  intros Hw Hn. rewrite Forall_lookup in Hw.
  apply double_spaced_lookup in Hn as [Hn|[[? _]|[[? _]|Hn]]]; [|by left|by right|];
    apply Hw in Hn; by rewrite space_not_word in Hn.
Qed.

Lemma double_spaced_no_match prev0 w l1 c l2 :
  Forall (fun x => isword x = true) w ->
  w ++ 32 :: 32 :: w = l1 ++ c :: l2 ->
  match_at re_repeated_word (match last l1 with Some x => Some x | None => prev0 end)
    (c :: l2) = None.
Proof.
  intros Hw Heq. destruct (match_at _ _ _) as [st'|] eqn:Hm; [exfalso|done].
  apply repeated_word_match_shape in Hm as (w0 & tail & Hw0 & Hs).
  rewrite Hs in Heq. clear Hs.
  destruct (last (c :: w0)) as [x|] eqn:Hl; [|by apply last_None in Hl].
  apply last_Some in Hl as [u Hu].
  assert (isword x = true) as Hx.
  { rewrite Hu in Hw0. by apply Forall_app in Hw0 as [_ [? _]%Forall_cons]. }
  assert (isword c = true) as Hc by (by apply Forall_cons in Hw0 as [? _]).
  rewrite Hu, <- !app_assoc in Heq. cbn [app] in Heq.
  assert ((w ++ 32 :: 32 :: w) !! length (l1 ++ u) = Some x) as H0.
  { rewrite Heq, app_assoc. apply list_lookup_middle. done. }
  assert ((w ++ 32 :: 32 :: w) !! S (length (l1 ++ u)) = Some 32) as H1.
  { rewrite Heq, app_assoc.
    rewrite (cons_middle x), app_assoc. 
    replace (S (length (l1 ++ u))) with (length ((l1 ++ u) ++ [x]))
      by (rewrite (length_app _ [x]); simpl; lia).
    by apply list_lookup_middle. }
  assert ((w ++ 32 :: 32 :: w) !! S (S (length (l1 ++ u))) = Some c) as H2.
  { rewrite Heq, app_assoc.
    rewrite (cons_middle x), app_assoc, (cons_middle 32), app_assoc.
    replace (S (S (length (l1 ++ u)))) with (length (((l1 ++ u) ++ [x]) ++ [32]))
      by (rewrite !(length_app _ [_]); simpl; lia).
    replace (u ++ x :: tail) with (c :: w0 ++ tail)
      by (by rewrite app_comm_cons, Hu, <- app_assoc).
    by apply list_lookup_middle. }
  apply double_spaced_space in H1; [|done].
  apply double_spaced_word in H0 as [? ?]; [|done..].
  apply double_spaced_word in H2 as [? ?]; [|done..].
  lia.
Qed.

Lemma sub_spaces_app u s prev :
  Forall (fun c => isspace c = false) u ->
  sub_from re_spaces [RChr 32] prev 0 (u ++ s)
  = u ++ sub_from re_spaces [RChr 32] None 0 s.
Proof.
  intros Hu. revert prev. induction Hu as [|c u Hc _ IH]; intros prev.
  - apply sub_spaces_prev.
  - rewrite <- app_comm_cons, sub_spaces_nonspace by done. by rewrite IH.
Qed.

(** X20.  A word written twice with two spaces between is left with its
    repetition, one space between: the repetitions are removed before the
    whitespace is collapsed, and only a repetition after a single space is
    one.  Normalizing the result once more removes it. *)
Theorem repetition_after_two_spaces (w : pystr) :
  w <> [] ->
  Forall (fun c => isword c = true /\ isspace c = false) w ->
  normalize_title (w ++ 32 :: 32 :: w) = w ++ 32 :: w
  /\ normalize_title (normalize_title (w ++ 32 :: 32 :: w)) = w.
Proof.
  intros Hne Hw.
  assert (normalize_title (w ++ 32 :: 32 :: w) = w ++ 32 :: w) as Hn.
  { assert (Forall (fun x => isword x = true) w) as Hcw
      by (eapply Forall_impl; [exact Hw|]; by intros x [? _]).
    assert (Forall (fun x => isspace x = false) w) as Hsp
      by (eapply Forall_impl; [exact Hw|]; by intros x [_ ?]).
    unfold normalize_title, re_sub.
    rewrite (sub_from_no_match re_repeated_word [RGrp 1] (w ++ 32 :: 32 :: w) None)
      by (intros l1 c l2 Heq; by apply double_spaced_no_match with (w := w)).
    rewrite sub_spaces_app, sub_spaces_run by done. f_equal. f_equal.
    destruct w as [|c w]; [done|]. apply Forall_cons in Hsp as [Hc Hsp].
    cbn [lstrip]. rewrite Hc. apply sub_spaces_id. by constructor. }
  split; [done|]. rewrite Hn. by apply normalize_doubled_word.
Qed.

End NormalizedTitles.

(** ** The file written *)

Section Writer.

Lemma hex_val_digit d : d < 16 -> hex_val (hex_digit d) = Some d.
Proof.
  intros Hd. unfold hex_val, hex_digit. destruct (d <? 10) eqn:E.
  - apply N.ltb_lt in E.
    replace ((48 <=? 48 + d) && (48 + d <=? 57)) with true
      by (symmetry; apply andb_true_iff; split; apply N.leb_le; lia).
    f_equal. lia.
  - apply N.ltb_ge in E.
    replace ((48 <=? 87 + d) && (87 + d <=? 57)) with false
      by (symmetry; apply andb_false_iff; right; apply N.leb_gt; lia).
    replace ((97 <=? 87 + d) && (87 + d <=? 102)) with true
      by (symmetry; apply andb_true_iff; split; apply N.leb_le; lia).
    f_equal. lia.
Qed.

Lemma read_string_step c X t rest :
  read_string X = Some (t, rest) ->
  read_string (escape_char c ++ X) = Some (c :: t, rest).
Proof.
  intros HX. unfold escape_char.
  destruct (c =? 34) eqn:E1; [apply N.eqb_eq in E1 as ->; cbn; by rewrite HX|].
  destruct (c =? 92) eqn:E2; [apply N.eqb_eq in E2 as ->; cbn; by rewrite HX|].
  destruct (c =? 10) eqn:E3; [apply N.eqb_eq in E3 as ->; cbn; by rewrite HX|].
  destruct (c =? 13) eqn:E4; [apply N.eqb_eq in E4 as ->; cbn; by rewrite HX|].
  destruct (c =? 9) eqn:E5; [apply N.eqb_eq in E5 as ->; cbn; by rewrite HX|].
  destruct (c =? 12) eqn:E6; [apply N.eqb_eq in E6 as ->; cbn; by rewrite HX|].
  destruct (c =? 8) eqn:E7; [apply N.eqb_eq in E7 as ->; cbn; by rewrite HX|].
  destruct (c <? 32) eqn:Hlt.
  - apply N.ltb_lt in Hlt.
    assert (c / 16 < 16) as Hq by (apply N.Div0.div_lt_upper_bound; lia).
    assert (c mod 16 < 16) as Hr by (apply N.mod_lt; lia).
    change (read_string ([92; 117; 48; 48; hex_digit (c / 16); hex_digit (c mod 16)] ++ X))
      with (match hex_val (hex_digit (c / 16)), hex_val (hex_digit (c mod 16)),
                  read_string X with
            | Some x, Some y, Some (t, rest) => Some (16 * x + y :: t, rest)
            | _, _, _ => None
            end).
    rewrite !hex_val_digit, HX by done.
    by rewrite <- (N.div_mod c 16) by lia.
  - cbn [app read_string]. by rewrite E1, E2, HX.
Qed.

(** A string is read back from the text written for it. *)
Lemma read_string_escaped s rest :
  read_string (flat_map escape_char s ++ 34 :: rest) = Some (s, rest).
Proof.
  induction s as [|c s IH]; [done|].
  cbn [flat_map]. rewrite <- app_assoc. by apply read_string_step.
Qed.

Lemma encode_basestring_inj s1 r1 s2 r2 :
  encode_basestring s1 ++ r1 = encode_basestring s2 ++ r2 -> s1 = s2 /\ r1 = r2.
Proof.
  unfold encode_basestring. rewrite <- !app_comm_cons, <- !app_assoc.
  intros [= H]. apply (f_equal read_string) in H. cbn [app] in H.
  rewrite !read_string_escaped in H. by injection H.
Qed.

Lemma uint_chars_inj d1 d2 : uint_chars d1 = uint_chars d2 -> d1 = d2.
Proof.
  revert d2. induction d1 as [|d1 IH|d1 IH|d1 IH|d1 IH|d1 IH|d1 IH|d1 IH|d1 IH|d1 IH|d1 IH];
    intros [|d2|d2|d2|d2|d2|d2|d2|d2|d2|d2]; cbn [uint_chars]; intros H;
    try discriminate H; try done; injection H as H; f_equal; by apply IH.
Qed.

Lemma uint_chars_digits d : Forall (fun c => ascii_isdigit c = true) (uint_chars d).
Proof. induction d; cbn [uint_chars]; by constructor. Qed.

Lemma int_repr_chars z : Forall (fun c => int_char c = true) (int_repr z).
Proof.
  unfold int_repr.
  assert (forall d, Forall (fun c => int_char c = true) (uint_chars d)) as Hd.
  { intros d. eapply Forall_impl; [apply uint_chars_digits|].
    intros c Hc. unfold int_char. rewrite Hc. apply orb_true_r. }
  destruct (Z.to_int z); [done|]. by constructor.
Qed.

Lemma int_repr_inj z1 z2 : int_repr z1 = int_repr z2 -> z1 = z2.
Proof.
  unfold int_repr. intros H.
  rewrite <- (DecimalZ.of_to z1), <- (DecimalZ.of_to z2).
  destruct (Z.to_int z1) as [d1|d1], (Z.to_int z2) as [d2|d2].
  - by rewrite (uint_chars_inj _ _ H).
  - pose proof (uint_chars_digits d1) as Hd. rewrite H in Hd.
    by apply Forall_cons in Hd as [? _].
  - pose proof (uint_chars_digits d2) as Hd. rewrite <- H in Hd.
    by apply Forall_cons in Hd as [? _].
  - injection H as H. by rewrite (uint_chars_inj _ _ H).
Qed.

Lemma int_repr_split z1 r1 z2 r2 :
  int_repr z1 ++ 10 :: r1 = int_repr z2 ++ 10 :: r2 -> z1 = z2 /\ r1 = r2.
Proof.
  intros H. apply (run_split int_char) in H as (H & _ & ?);
    [|apply int_repr_chars..|done|done].
  split; [by apply int_repr_inj|done].
Qed.

Lemma level_name_inj lv1 lv2 : level_name lv1 = level_name lv2 -> lv1 = lv2.
Proof. by destruct lv1, lv2. Qed.

Lemma join_cons sep x xs :
  join sep (x :: xs) = x ++ match xs with [] => [] | _ :: _ => sep ++ join sep xs end.
Proof. destruct xs; [by rewrite app_nil_r|done]. Qed.

(** The text of an entry of the outline. *)
Lemma entry_text e :
  iterencode (entry_json e) 2 =
  lit "{" ++ newline_indent 3 ++ encode_basestring (lit "level") ++ lit ": "
  ++ encode_basestring (level_name (o_level e))
  ++ lit "," ++ newline_indent 3 ++ encode_basestring (lit "text") ++ lit ": "
  ++ encode_basestring (o_text e)
  ++ lit "," ++ newline_indent 3 ++ encode_basestring (lit "page") ++ lit ": "
  ++ int_repr (o_page e) ++ newline_indent 2 ++ lit "}".
Proof.
  unfold entry_json. cbn [iterencode join map fst snd].
  by rewrite <- !app_assoc.
Qed.

Lemma entry_text_inj e1 T1 e2 T2 :
  iterencode (entry_json e1) 2 ++ T1 = iterencode (entry_json e2) 2 ++ T2 ->
  e1 = e2 /\ T1 = T2.
Proof.
  rewrite !entry_text, <- !app_assoc. intros H.
  do 4 apply app_inv_head in H.
  apply encode_basestring_inj in H as [Hl%level_name_inj H].
  do 4 apply app_inv_head in H.
  apply encode_basestring_inj in H as [Ht H].
  do 4 apply app_inv_head in H.
  unfold newline_indent in H. rewrite <- !app_comm_cons in H.
  apply int_repr_split in H as [Hp H].
  do 2 apply app_inv_head in H.
  split; [|done]. destruct e1, e2; simpl in *. congruence.
Qed.

Lemma entries_text_inj es1 es2 :
  join (lit "," ++ newline_indent 2) (map (fun e => iterencode (entry_json e) 2) es1)
  = join (lit "," ++ newline_indent 2) (map (fun e => iterencode (entry_json e) 2) es2) ->
  es1 = es2.
Proof.
  revert es2. induction es1 as [|e1 es1 IH]; intros [|e2 es2]; [done| | |].
  - cbn [map]. rewrite join_cons, entry_text. discriminate.
  - cbn [map]. rewrite join_cons, entry_text. discriminate.
  - cbn [map]. rewrite !join_cons. intros [-> H]%entry_text_inj. f_equal.
    destruct es1 as [|a es1], es2 as [|b es2]; [done|discriminate H|discriminate H|].
    apply IH. by apply app_inv_head in H.
Qed.

(** The text of the record. *)
Lemma save_json_text r :
  save_json r =
  lit "{" ++ newline_indent 1 ++ encode_basestring (lit "title") ++ lit ": "
  ++ encode_basestring (title r)
  ++ lit "," ++ newline_indent 1 ++ encode_basestring (lit "outline") ++ lit ": "
  ++ iterencode (JList (map entry_json (outline r))) 1
  ++ newline_indent 0 ++ lit "}".
Proof.
  unfold save_json, result_json. cbn [iterencode join map fst snd].
  by rewrite <- !app_assoc.
Qed.

(** X14.  The file determines the record: two records that differ in the
    title, or in the level, the text or the page of an entry, or in the
    number or the order of the entries, are written as different texts. *)
Theorem save_json_injective (r1 r2 : Result) :
  r1 <> r2 -> save_json r1 <> save_json r2.
Proof.
  intros Hne H. apply Hne. clear Hne. rewrite !save_json_text in H.
  do 4 apply app_inv_head in H.
  apply encode_basestring_inj in H as [Ht H].
  do 4 apply app_inv_head in H.
  apply app_inv_tail in H.
  assert (outline r1 = outline r2) as Ho.
  { cbn [iterencode] in H.
    destruct (outline r1) as [|a es1] eqn:E1, (outline r2) as [|b es2] eqn:E2;
      [done|discriminate H|discriminate H|].
    rewrite <- E1, <- E2 in H.
    assert (forall es level,
              map (fun x => iterencode x level) (map entry_json es)
              = map (fun e => iterencode (entry_json e) level) es) as Hmap
      by (intros es level; apply map_map).
    destruct (map entry_json (outline r1)) eqn:M1; [by rewrite E1 in M1|].
    destruct (map entry_json (outline r2)) eqn:M2; [by rewrite E2 in M2|].
    rewrite <- M1, <- M2, !Hmap in H.
    do 2 apply app_inv_head in H. apply app_inv_tail in H.
    rewrite <- E1, <- E2. by apply entries_text_inj. }
  destruct r1, r2; simpl in *. congruence.
Qed.

(** What is written for a character is free of control characters, and
    is the character itself when that is outside ASCII. *)
Lemma hex_digit_ascii d : d < 16 -> plain (hex_digit d) = true /\ hex_digit d < 128.
Proof.
  intros Hd. unfold plain, hex_digit. destruct (d <? 10); split;
    [apply orb_true_iff; right; apply N.leb_le; lia|lia
    |apply orb_true_iff; right; apply N.leb_le; lia|lia].
Qed.

Lemma escape_char_ascii c :
  c < 128 -> Forall (fun x => plain x = true /\ x < 128) (escape_char c).
Proof.
  intros Hc. unfold escape_char.
  destruct (c =? 34); [by repeat constructor|].
  destruct (c =? 92); [by repeat constructor|].
  destruct (c =? 10); [by repeat constructor|].
  destruct (c =? 13); [by repeat constructor|].
  destruct (c =? 9); [by repeat constructor|].
  destruct (c =? 12); [by repeat constructor|].
  destruct (c =? 8); [by repeat constructor|].
  destruct (c <? 32) eqn:Hlt.
  - apply N.ltb_lt in Hlt.
    assert (c / 16 < 16) as Hq by (apply N.Div0.div_lt_upper_bound; lia).
    assert (c mod 16 < 16) as Hr by (apply N.mod_lt; lia).
    repeat (constructor; [done|]).
    constructor; [by apply hex_digit_ascii|].
    constructor; [by apply hex_digit_ascii|]. constructor.
  - apply N.ltb_ge in Hlt. constructor; [|constructor]. split; [|done].
    unfold plain. apply orb_true_iff. right. by apply N.leb_le.
Qed.

Lemma escape_char_non_ascii c : 128 <= c -> escape_char c = [c].
Proof.
  intros Hc. unfold escape_char.
  replace (c =? 34) with false by (symmetry; apply N.eqb_neq; lia).
  replace (c =? 92) with false by (symmetry; apply N.eqb_neq; lia).
  replace (c =? 10) with false by (symmetry; apply N.eqb_neq; lia).
  replace (c =? 13) with false by (symmetry; apply N.eqb_neq; lia).
  replace (c =? 9) with false by (symmetry; apply N.eqb_neq; lia).
  replace (c =? 12) with false by (symmetry; apply N.eqb_neq; lia).
  replace (c =? 8) with false by (symmetry; apply N.eqb_neq; lia).
  by replace (c <? 32) with false by (symmetry; apply N.ltb_ge; lia).
Qed.

Lemma non_ascii_app s1 s2 : non_ascii (s1 ++ s2) = non_ascii s1 ++ non_ascii s2.
Proof. apply filter_app. Qed.

Lemma non_ascii_none s : Forall (fun x => x < 128) s -> non_ascii s = [].
Proof.
  intros Hs. apply filter_none. eapply Forall_impl; [exact Hs|]. simpl. intros x H1 H2. lia.
Qed.

Lemma non_ascii_plain s :
  Forall (fun x => plain x = true /\ x < 128) s -> non_ascii s = [].
Proof.
  intros Hs. apply non_ascii_none. eapply Forall_impl; [exact Hs|]. by intros x [_ ?].
Qed.

Lemma encode_basestring_plain s : Forall (fun x => plain x = true) (encode_basestring s).
Proof.
  unfold encode_basestring. constructor; [done|]. apply Forall_app. split; [|by constructor].
  induction s as [|c s IH]; [done|]. cbn [flat_map]. apply Forall_app. split; [|done].
  destruct (decide (c < 128)) as [Hc|Hc].
  - eapply Forall_impl; [by apply escape_char_ascii|]. by intros x [? _].
  - rewrite escape_char_non_ascii by lia. constructor; [|done].
    unfold plain. apply orb_true_iff. right. apply N.leb_le. lia.
Qed.

Lemma encode_basestring_non_ascii s :
  non_ascii (encode_basestring s) = non_ascii s.
Proof.
  unfold encode_basestring.
  change (34 :: flat_map escape_char s ++ [34])
    with ([34] ++ flat_map escape_char s ++ [34]).
  rewrite !non_ascii_app.
  replace (non_ascii [34]) with (@nil N) by done.
  rewrite app_nil_r. cbn [app].
  induction s as [|c s IH]; [done|]. cbn [flat_map]. rewrite non_ascii_app, IH.
  change (c :: s) with ([c] ++ s). rewrite non_ascii_app. f_equal.
  destruct (decide (c < 128)) as [Hc|Hc].
  - rewrite !non_ascii_none; [done|by constructor|].
    eapply Forall_impl; [by apply escape_char_ascii|]. by intros x [_ ?].
  - by rewrite escape_char_non_ascii by lia.
Qed.

Lemma newline_indent_plain n :
  Forall (fun x => plain x = true /\ x < 128) (newline_indent n).
Proof.
  unfold newline_indent. constructor; [done|].
  induction n as [|n IH]; [done|]. cbn [replicate concat].
  apply Forall_app. split; [|done]. by repeat constructor.
Qed.

Lemma int_repr_plain z : Forall (fun x => plain x = true /\ x < 128) (int_repr z).
Proof.
  eapply Forall_impl; [apply int_repr_chars|]. intros c. unfold int_char, plain, ascii_isdigit.
  intros [->%N.eqb_eq|[H1%N.leb_le H2%N.leb_le]%andb_true_iff]%orb_true_iff; [done|].
  split; [|lia]. apply orb_true_iff. right. apply N.leb_le. lia.
Qed.

Lemma level_name_plain lv : Forall (fun x => plain x = true /\ x < 128) (level_name lv).
Proof. destruct lv; by repeat constructor. Qed.

(** Splits a statement on a text into statements on its parts. *)
Ltac split_text :=
  repeat first
    [ apply Forall_app; split
    | apply encode_basestring_plain
    | eapply Forall_impl; [apply newline_indent_plain|]; by intros ? [? ?]
    | eapply Forall_impl; [apply int_repr_plain|]; by intros ? [? ?]
    | by repeat constructor ].

Lemma entry_plain e : Forall (fun x => plain x = true) (iterencode (entry_json e) 2).
Proof. rewrite entry_text. split_text. Qed.

Lemma join_Forall (P : N -> Prop) sep l :
  Forall P sep -> Forall (Forall P) l -> Forall P (join sep l).
Proof.
  intros Hsep. induction 1 as [|x l Hx _ IH]; [done|]. rewrite join_cons.
  apply Forall_app. split; [done|]. destruct l; [done|]. by apply Forall_app.
Qed.

(** X15.  The text written has no control character but the line break:
    what a title or a heading holds of them is escaped. *)
Theorem save_json_no_control_characters (r : Result) :
  Forall (fun c => c = 10 \/ 32 <= c) (save_json r).
Proof.
  assert (Forall (fun x => plain x = true) (save_json r)) as H.
  { rewrite save_json_text. split_text. cbn [iterencode].
    destruct (map entry_json (outline r)) as [|j js] eqn:Hm; [by repeat constructor|].
    rewrite <- Hm. clear Hm. split_text. rewrite map_map. apply join_Forall; [split_text|].
    apply Forall_forall. intros x (e & <- & _)%list_elem_of_In%in_map_iff.
    apply entry_plain. }
  eapply Forall_impl; [exact H|]. intros c. unfold plain.
  intros [?%N.eqb_eq|?%N.leb_le]%orb_true_iff; auto.
Qed.

(** Rewrites the characters outside ASCII of a text into those of its
    parts. *)
Ltac non_ascii_parts :=
  rewrite ?non_ascii_app, ?encode_basestring_non_ascii,
    ?(non_ascii_plain (newline_indent _)) by apply newline_indent_plain;
  rewrite ?(non_ascii_plain (int_repr _)) by apply int_repr_plain;
  rewrite ?(non_ascii_plain (level_name _)) by apply level_name_plain;
  rewrite ?(non_ascii_plain (lit _)) by (by repeat constructor);
  rewrite ?app_nil_l, ?app_nil_r.

Lemma entry_non_ascii e : non_ascii (iterencode (entry_json e) 2) = non_ascii (o_text e).
Proof. rewrite entry_text. by non_ascii_parts. Qed.

Lemma entries_non_ascii es :
  non_ascii (join (lit "," ++ newline_indent 2)
               (map (fun e => iterencode (entry_json e) 2) es))
  = non_ascii (concat (o_text <$> es)).
Proof.
  induction es as [|e es IH]; [done|]. cbn [map]. rewrite join_cons, fmap_cons.
  cbn [concat]. rewrite !non_ascii_app, entry_non_ascii. f_equal.
  destruct es as [|e' es]; [done|]. rewrite <- IH. by non_ascii_parts.
Qed.

(** X16.  The characters outside ASCII of the text written are those of
    the title and of the texts of the entries, in their order: none of them
    is escaped, and nothing else in the file is outside ASCII. *)
Theorem save_json_keeps_non_ascii (r : Result) :
  non_ascii (save_json r) = non_ascii (title r ++ concat (o_text <$> outline r)).
Proof.
  rewrite save_json_text. non_ascii_parts. f_equal. cbn [iterencode].
  destruct (map entry_json (outline r)) as [|j js] eqn:Hm.
  { by destruct (outline r). }
  rewrite <- Hm. clear Hm. rewrite map_map. non_ascii_parts. apply entries_non_ascii.
Qed.

End Writer.

(** ** The batch *)

Section BatchFacts.
Context {U : UnicodeDB} {E : Environment}.











End BatchFacts.

(** ** The choice of the title *)

Section TitleChoice.
Context {U : UnicodeDB}.

Lemma find_split {A} (p : A -> bool) (l : list A) (c : A) :
  List.find p l = Some c ->
  exists l1 l2, l = l1 ++ c :: l2 /\ p c = true /\ Forall (fun x => p x = false) l1.
Proof.
  induction l as [|x l IH]; [done|]. cbn [List.find].
  destruct (p x) eqn:Hx.
  - intros [= ->]. by exists [], l.
  - intros (l1 & l2 & -> & Hc & Hl1)%IH. exists (x :: l1), l2. by repeat constructor.
Qed.

Lemma find_none_Forall {A} (p : A -> bool) (l : list A) :
  List.find p l = None -> Forall (fun x => p x = false) l.
Proof.
  induction l as [|x l IH]; [done|]. cbn [List.find].
  destruct (p x) eqn:Hx; [done|]. intros H. constructor; auto.
Qed.

Lemma scan_order_refl b :
  not_nan (size b) -> not_nan (y0 b) -> scan_order b b.
Proof.
  intros Hs Hy. right. split; [by apply F_eq_refl|]. apply F_eq_le. by apply F_eq_refl.
Qed.

Lemma scan_order_size a b : scan_order a b -> F.ge (size a) (size b) = true.
Proof.
  unfold scan_order, F.ge, F.gt. intros [H|[H _]].
  - by apply F_lt_le.
  - apply F_eq_le. by rewrite F_eq_sym.
Qed.

Lemma _extract_title_sorted page0 pages blocks b0 rest :
  sorted title_key_lt title_sort_key (filter (fun b => page_num b = 1%Z) blocks)
    = b0 :: rest ->
  _extract_title (page0 :: pages) blocks
    = Some (title_scan (size b0) (rect_width page0) (b0 :: rest)).
Proof.
  intros Hs. unfold _extract_title.
  destruct (filter _ blocks) as [|b bs] eqn:Hf; [discriminate Hs|]. by rewrite Hs.
Qed.

(** X19.  The choice of the title, for sizes and positions that are
    numbers.  The reference size is the largest size on page 1.  When a
    block of page 1 is a candidate relative to it, the title is made from
    the candidate that comes first in the order of the scan: no candidate is
    larger, and none of its size is higher on the page; when none is, the
    fallback is returned. *)
Theorem title_choice (page0 : Page) (pages : list Page) (blocks : list TextBlock) :
  Forall (fun b => not_nan (size b) /\ not_nan (y0 b)) (page1_blocks blocks) ->
  page1_blocks blocks <> [] ->
  exists b0,
    b0 ∈ page1_blocks blocks
    /\ (forall b, b ∈ page1_blocks blocks -> F.ge (size b0) (size b) = true)
    /\ ((exists c,
           c ∈ page1_blocks blocks
           /\ title_candidate (size b0) (rect_width page0) c = true
           /\ _extract_title (page0 :: pages) blocks = Some (accepted_title c)
           /\ forall c', c' ∈ page1_blocks blocks ->
                title_candidate (size b0) (rect_width page0) c' = true ->
                scan_order c c')
        \/ ((forall b, b ∈ page1_blocks blocks ->
               title_candidate (size b0) (rect_width page0) b = false)
            /\ _extract_title (page0 :: pages) blocks = Some default_title)).
Proof.
  unfold page1_blocks. intros Hnn Hne.
  set (page1 := filter (fun b => page_num b = 1%Z) blocks) in *.
  pose proof (sorted_perm title_key_lt title_sort_key page1) as Hperm.
  pose proof (sorted_scan_order page1 Hnn) as Hsorted.
  destruct (sorted title_key_lt title_sort_key page1) as [|b0 rest] eqn:Hs.
  { by apply sorted_nil_inv in Hs. }
  assert (forall b, b ∈ page1 <-> b ∈ b0 :: rest) as Hin
    by (intros b; by rewrite Hperm).
  rewrite Forall_forall in Hnn.
  exists b0. split_and!.
  - apply Hin. by left.
  - intros b [->|Hb]%Hin%elem_of_cons.
    + apply scan_order_size, scan_order_refl; apply Hnn, Hin; by left.
    + apply scan_order_size. apply StronglySorted_inv in Hsorted as [_ Hall].
      rewrite Forall_forall in Hall. by apply Hall.
  - rewrite (_extract_title_sorted page0 pages blocks b0 rest Hs), title_scan_find.
    destruct (List.find _ (b0 :: rest)) as [c|] eqn:Hfind.
    + left. apply find_split in Hfind as (l1 & l2 & Heq & Hc & Hl1).
      exists c. split_and!; [apply Hin; rewrite Heq; set_solver|done|done|].
      intros c' Hc' Hcand. apply Hin in Hc'. rewrite Heq in Hc', Hsorted.
      apply elem_of_app in Hc' as [Hc'|[->|Hc']%elem_of_cons].
      * rewrite Forall_forall in Hl1. rewrite (Hl1 c' Hc') in Hcand. done.
      * apply scan_order_refl; apply Hnn, Hin; rewrite Heq; set_solver.
      * apply StronglySorted_app_1_r, StronglySorted_inv in Hsorted as [_ Hall].
        rewrite Forall_forall in Hall. by apply Hall.
    + right. split; [|done]. intros b Hb%Hin.
      apply find_none_Forall in Hfind. rewrite Forall_forall in Hfind. by apply Hfind.
Qed.

End TitleChoice.

(** ** The further theorems at concrete inputs *)

Lemma block_text_single_spaced_witness :
  text spaced_block = lit "Annual Report 2024"
  /\ text spaced_block
     = join (lit " ") ((fun sp => strip (span_text sp)) <$> filter usable (spans spaced_line)).
Proof.
  split; [reflexivity|].
  apply (block_text_single_spaced (example_page 0 []) spaced_line).
  vm_compute. left.
Defined.

Lemma blocks_trimmed_witness :
  (2 <= length (text spaced_block))%nat
  /\ strip (text spaced_block) = text spaced_block
  /\ exists page,
       page ∈ [example_page 0 []; {| number := 0; rect_width := 612%float;
                                     raw_blocks := [ {| lines := Some [spaced_line] |} ] |}]
       /\ page_num spaced_block = (number page + 1)%Z.
Proof.
  apply blocks_trimmed. vm_compute. left.
Defined.

Lemma title_from_first_page_witness :
  filter (fun b => page_num b = 1%Z) (_extract_all_blocks [first_page; second_page])
    = _extract_text_blocks first_page
  /\ _extract_title [first_page; second_page] (_extract_all_blocks [first_page; second_page])
     = _extract_title [first_page] (_extract_all_blocks [first_page]).
Proof.
  apply (title_from_first_page (U := ascii_only) first_page [second_page]).
  intros [|[|i]] page; simpl; intros Hp; [| |discriminate Hp];
    injection Hp as <-; reflexivity.
Defined.

Lemma ascii_space_not_digit c :
  isspace c = true -> isdigit (U := ascii_only) c = false.
Proof.
  unfold isdigit, is_ascii, ascii_isdigit, isspace. intros Hc.
  destruct (c <? 128) eqn:Ha; [|done].
  apply andb_false_iff. rewrite N.leb_gt, N.leb_gt.
  repeat (apply orb_true_iff in Hc as [Hc|Hc]);
    repeat match goal with
    | H : _ && _ = true |- _ => apply andb_true_iff in H as [? ?]
    | H : (_ <=? _) = true |- _ => apply N.leb_le in H
    | H : (_ =? _) = true |- _ => apply N.eqb_eq in H
    | H : (_ <? _) = true |- _ => apply N.ltb_lt in H
    end; lia.
Qed.

Lemma numbering_depth_decides_level_witness :
  _is_heading (set_body_font_size __init__ 10) four_group_block = true
  /\ _get_level (set_body_font_size __init__ 10) four_group_block = None.
Proof.
  destruct (numbering_depth_decides_level (U := ascii_only)
              (set_body_font_size __init__ 10) four_group_block
              (lit "1") [lit "2"; lit "3"; lit "4"] 32 (lit "Details"))
    as [H1 H2].
  - apply ascii_space_not_digit.
  - split; [discriminate|]. repeat (constructor; [reflexivity|]). constructor.
  - repeat (constructor; [split; [discriminate|];
                          repeat (constructor; [reflexivity|]); constructor|]).
    constructor.
  - reflexivity.
  - reflexivity.
  - split; [rewrite H1|rewrite H2]; reflexivity.
Defined.

Lemma doubled_word_title_witness :
  normalize_title (strip (text (example_block "Notes Notes" 24 false 60 1))) = lit "Notes"
  /\ accepted_title (example_block "Notes Notes" 24 false 60 1) = lit "Document Title".
Proof.
  apply (doubled_word_title (U := ascii_only) (example_block "Notes Notes" 24 false 60 1)
           (lit "Notes")).
  - discriminate.
  - repeat (constructor; [split; reflexivity|]). constructor.
  - reflexivity.
Defined.

Lemma save_json_injective_witness :
  save_json quoted_result <> save_json unquoted_result.
Proof.
  apply save_json_injective. discriminate.
Defined.


(** The run of the batch on the example: the document that opens is
    written, the one that does not is reported, and the file that is no PDF
    is passed over. *)
Example run_of_example_listing :
  let w := run_process_all_pdfs (U := ascii_only) (E := one_document_world)
             (lit "in") (lit "out") example_listing ∅ [] in
  stdout w = [ lit "Processed: report.pdf";
               lit "Error processing broken.pdf: cannot open broken document" ]
  /\ files w !! lit "out/report.json"
     = Some (Complete (save_json {| title := lit "Quarterly Review";
                                    outline := [ {| o_level := H1;
                                                    o_text := lit "Quarterly Review";
                                                    o_page := 1 |};
                                                 {| o_level := H1;
                                                    o_text := lit "1 Introduction";
                                                    o_page := 2 |} ] |})).
Proof. vm_compute. split; reflexivity. Qed.

Lemma repetition_after_two_spaces_witness :
  normalize_title (U := ascii_only) (lit "Summary  Summary") = lit "Summary Summary"
  /\ normalize_title (U := ascii_only)
       (normalize_title (U := ascii_only) (lit "Summary  Summary")) = lit "Summary".
Proof.
  apply (repetition_after_two_spaces (U := ascii_only) (lit "Summary")).
  - discriminate.
  - repeat (constructor; [split; reflexivity|]). constructor.
Defined.

Lemma title_choice_witness :
  exists b0,
    b0 ∈ page1_blocks list_item_page
    /\ (forall b, b ∈ page1_blocks list_item_page -> F.ge (size b0) (size b) = true)
    /\ ((exists c,
           c ∈ page1_blocks list_item_page
           /\ title_candidate (size b0) 612 c = true
           /\ _extract_title [example_page 0 []] list_item_page = Some (accepted_title c)
           /\ forall c', c' ∈ page1_blocks list_item_page ->
                title_candidate (size b0) 612 c' = true -> scan_order c c')
        \/ ((forall b, b ∈ page1_blocks list_item_page ->
               title_candidate (size b0) 612 b = false)
            /\ _extract_title [example_page 0 []] list_item_page = Some default_title)).
Proof.
  apply (title_choice (U := ascii_only) (example_page 0 []) [] list_item_page).
  - vm_compute. repeat constructor.
  - vm_compute. discriminate.
Defined.
